(** * UiSettings: the single-flight, memoised loader of the UI settings

    A shallow embedding of [orion-ui/src/services/uiSettings.ts].

    The TypeScript class keeps three static slots ([settings], [promise],
    [baseUrl]) and two asynchronous methods ([load], [get]).  The embedding
    has four layers:

    - the JavaScript values the file handles, with property access,
      truthiness and the one pure function [mapSettingsResponse];
    - a promise store with reaction lists and a FIFO microtask queue, which
      is what [new Promise], [.then], [.catch], [await] and an [async]
      function's [return] are made of;
    - [load] and [get], cut at their [await]s: the synchronous prefix is a
      state transformer, the code after an [await] is a reaction;
    - an event loop: calls from the application, the settlement of the
      HTTP request by the network, and microtask ticks.  An event may come
      between any two microtasks, which is more interleavings than a
      browser produces: what holds of every run here holds of every run
      there.

    The promise store records, with each promise, the expression of the
    source that created it; the two collaborators ([axios.get] and
    [showToast]) are logs of the calls made to them.  The main result is
    the invariant [Inv] of the event loop; the properties of [load] and
    [get] at the end of the file are read off it.  *)

From Stdlib Require Import ZArith String Ascii List Bool Lia.
From stdpp Require Import base list.
Import ListNotations.

(** ** JavaScript values *)

(** Objects are finite lists of own properties (a key is bound at most
    once; lookup takes the first binding).  Numbers are the integer-valued
    ones.  [VBuiltin k] is the member [k] that every object inherits from
    [Object.prototype]; [VTypeError] is a [TypeError] instance raised by the
    runtime. *)
#[warnings="-register-all"]
Inductive value : Type :=
| VUndefined
| VNull
| VBool (b : bool)
| VNum (n : Z)
| VStr (s : string)
| VObj (props : list (string * value))
| VBuiltin (name : string)
| VTypeError.

(** The result of running a piece of code that may [throw]. *)
Inductive completion : Type :=
| Return (v : value)
| Throw (e : value).

(** [ToBoolean]: the falsy values are [undefined], [null], [false], [0]
    and the empty string. *)
Definition truthy (v : value) : bool :=
  match v with
  | VUndefined | VNull => false
  | VBool b => b
  | VNum n => negb (Z.eqb n 0)
  | VStr s => negb (String.eqb s "")
  | VObj _ | VBuiltin _ | VTypeError => true
  end.

(** [v === undefined] and [v !== null]. *)
Definition is_undefined (v : value) : bool :=
  match v with VUndefined => true | _ => false end.

Definition is_null (v : value) : bool :=
  match v with VNull => true | _ => false end.

Fixpoint own_prop (props : list (string * value)) (k : string) : option value :=
  match props with
  | [] => None
  | (k', v) :: rest => if String.eqb k k' then Some v else own_prop rest k
  end.

(** The property names of [Object.prototype]. *)
Definition object_prototype : list string :=
  [ "constructor"; "__defineGetter__"; "__defineSetter__"; "hasOwnProperty";
    "__lookupGetter__"; "__lookupSetter__"; "isPrototypeOf";
    "propertyIsEnumerable"; "toString"; "valueOf"; "__proto__";
    "toLocaleString" ]%string.

Definition inherited (k : string) : value :=
  if existsb (String.eqb k) object_prototype then VBuiltin k else VUndefined.

(** [v.k] (equally [v[k]]).  Reading a property of [undefined] or [null]
    throws a [TypeError], which is [None] here.  A plain object answers with
    its own property, else with what it inherits.  The other values are
    boxed by the runtime; of the boxes' members only the inherited ones are
    kept, which is exact for the three keys the program reads from values it
    did not build itself ([data], [api_url], [status]). *)
Definition get_prop (v : value) (k : string) : option value :=
  match v with
  | VUndefined | VNull => None
  | VObj props =>
      Some (match own_prop props k with
            | Some x => x
            | None => inherited k
            end)
  | VBool _ | VNum _ | VStr _ | VBuiltin _ | VTypeError => Some (inherited k)
  end.

(** [v?.[k]]: [undefined] when [v] is [undefined] or [null]. *)
Definition opt_index (v : value) (k : string) : value :=
  match get_prop v k with
  | Some x => x
  | None => VUndefined
  end.

(** [has_field v k]: [k] is an own property of the object [v]. *)
Definition has_field (v : value) (k : string) : bool :=
  match v with
  | VObj props => match own_prop props k with Some _ => true | None => false end
  | _ => false
  end.

(** The functions among the values: the members of [Object.prototype],
    of which only [__proto__] is not one (reading it gives the prototype,
    an object that cannot be called). *)
Definition is_callable (v : value) : bool :=
  match v with
  | VBuiltin k => negb (String.eqb k "__proto__")
  | _ => false
  end.

(** [v] is a thenable: [v.then] can be read and is callable.  A promise
    that is resolved with a thenable is not fulfilled with it: the runtime
    calls [v.then(resolveFn, rejectFn)] instead.  (Of the primitive values
    none is a thenable here, their [then] being [undefined].) *)
Definition thenable (v : value) : bool :=
  match get_prop v "then" with
  | Some f => is_callable f
  | None => false
  end.

(** ** The pure parts of the source *)

(** [function mapSettingsResponse(response)]:
    [const settings = response.data; return { apiUrl: settings.api_url }]. *)
Definition mapSettingsResponse (response : value) : completion :=
  match get_prop response "data" with
  | None => Throw VTypeError
  | Some settings =>
      match get_prop settings "api_url" with
      | None => Throw VTypeError
      | Some api_url => Return (VObj [("apiUrl"%string, api_url)])
      end
  end.

(** What [showToast] is called with. *)
Inductive component : Type := ConnectionToastMessage.

Record toast : Type := mkToast {
  toast_message : component;
  toast_type : string;
  toast_options : value
}.

(** [showToast(toastMessage, 'error', { timeout: false })]. *)
Definition connection_toast : toast :=
  mkToast ConnectionToastMessage "error" (VObj [("timeout"%string, VBool false)]).

(** The handler given to [.catch]:
    [(error) => { if (!error.status) { showToast(...) } }].
    It returns the toasts it showed and its completion; falling off the end
    of the arrow function returns [undefined]. *)
Definition on_fetch_error (error : value) : list toast * completion :=
  match get_prop error "status" with
  | None => ([], Throw VTypeError)
  | Some status =>
      if negb (truthy status) then ([connection_toast], Return VUndefined)
      else ([], Return VUndefined)
  end.

Definition dquote : string := String (ascii_of_nat 34) EmptyString.

(** The template literal thrown by [get]. *)
Definition missing_setting (setting : string) : string :=
  ("UI setting " ++ dquote ++ setting ++ dquote
     ++ " does not exist and no default was provided.")%string.

(** The body of [get] after [await this.load()], as a function of the
    [settings] slot it reads.  An omitted [defaultValue] is [undefined]. *)
Definition get_resume (settings : value) (setting : string) (defaultValue : value)
  : completion :=
  let val := opt_index settings setting in
  if is_undefined val then
    if truthy defaultValue then Return defaultValue
    else Throw (VStr (missing_setting setting))
  else Return val.

(** The environment the class is defined in: what [MODE()] returns and
    [window.location.origin]. *)
Record environment : Type := mkEnv {
  MODE : string;
  location_origin : string
}.

(** The initialiser of [baseUrl]. *)
Definition resolve_base_url (e : environment) : string :=
  if String.eqb (MODE e) "development" then "http://127.0.0.1:4200"%string
  else location_origin e.

(** ** Promises *)

Abbreviation pid := nat.

Inductive settled : Type :=
| Fulfilled (v : value)
| Rejected (e : value).

Definition settled_of (c : completion) : settled :=
  match c with
  | Return v => Fulfilled v
  | Throw e => Rejected e
  end.

(** What is attached to a promise, one constructor per place of the source
    that attaches something:
    - [RCatch d]: [.catch(handler)], deriving [d];
    - [RThenMap d]: [.then(mapSettingsResponse)], deriving [d];
    - [RThenResolve p d]: [.then(resolve)], where [resolve] belongs to the
      promise [p] built by [new Promise], deriving [d];
    - [RAwaitLoad l]: the rest of the [load] call whose promise is [l],
      suspended at [await this.promise];
    - [RAwaitGet g setting defaultValue]: the rest of the [get] call whose
      promise is [g], suspended at [await this.load()];
    - [RAdopt l]: the resolving functions of [l], attached when an [async]
      function returned a promise. *)
Inductive reaction : Type :=
| RCatch (d : pid)
| RThenMap (d : pid)
| RThenResolve (p d : pid)
| RAwaitLoad (l : pid)
| RAwaitGet (g : pid) (setting : string) (defaultValue : value)
| RAdopt (l : pid).

(** A microtask: a reaction with the outcome it reacts to, or the job that
    makes [l] follow the promise [p] that was returned for it. *)
Inductive job : Type :=
| JReact (r : reaction) (o : settled)
| JThenable (l p : pid).

(** The expression that created a promise. *)
Inductive site : Type :=
| SLoadCall
| SGetCall (setting : string) (defaultValue : value)
| SNewPromise
| SAxiosGet
| SCatch
| SThenMap
| SThenResolve.

Record cell : Type := mkCell {
  created_by : site;
  pstate : option settled;
  reactions : list reaction
}.

(** [axios.get(url, { baseURL })], with the promise it returned. *)
Record request : Type := mkRequest {
  req_method : string;
  req_url : string;
  req_baseURL : string;
  req_promise : pid
}.

(** ** The state *)

(** The three static members of [UiSettings], the environment, the promise
    store with the microtask queue, and the two collaborators' logs (oldest
    first). *)
Record state : Type := mkState {
  settings : value;
  promise : option pid;
  baseUrl : string;
  env : environment;
  heap : list cell;
  queue : list job;
  requests : list request;
  toasts : list toast
}.

Definition set_settings (v : value) (st : state) : state :=
  mkState v (promise st) (baseUrl st) (env st) (heap st) (queue st)
          (requests st) (toasts st).

Definition set_promise (p : option pid) (st : state) : state :=
  mkState (settings st) p (baseUrl st) (env st) (heap st) (queue st)
          (requests st) (toasts st).

Definition set_env (e : environment) (st : state) : state :=
  mkState (settings st) (promise st) (baseUrl st) e (heap st) (queue st)
          (requests st) (toasts st).

Definition set_heap (h : list cell) (st : state) : state :=
  mkState (settings st) (promise st) (baseUrl st) (env st) h (queue st)
          (requests st) (toasts st).

Definition set_queue (q : list job) (st : state) : state :=
  mkState (settings st) (promise st) (baseUrl st) (env st) (heap st) q
          (requests st) (toasts st).

Definition set_requests (r : list request) (st : state) : state :=
  mkState (settings st) (promise st) (baseUrl st) (env st) (heap st) (queue st)
          r (toasts st).

Definition set_toasts (t : list toast) (st : state) : state :=
  mkState (settings st) (promise st) (baseUrl st) (env st) (heap st) (queue st)
          (requests st) t.

(** The class definition: [settings = null], [promise = null], and
    [baseUrl] evaluated there and then. *)
Definition init (e : environment) : state :=
  mkState VNull None (resolve_base_url e) e [] [] [] [].

(** *** Promise operations *)

Definition alloc (s : site) (st : state) : pid * state :=
  (length (heap st), set_heap (heap st ++ [mkCell s None []]) st).

Definition enqueue (j : job) (st : state) : state :=
  set_queue (queue st ++ [j]) st.

(** Settling a pending promise schedules its reactions, in the order they
    were attached; settling a settled promise does nothing. *)
Definition settle (p : pid) (o : settled) (st : state) : state :=
  match heap st !! p with
  | Some (mkCell s None rs) =>
      set_queue (queue st ++ map (fun r => JReact r o) rs)
                (set_heap (<[p := mkCell s (Some o) []]> (heap st)) st)
  | _ => st
  end.

(** Completing the promise of a handler or of an [async] function with the
    completion of its body: a thrown value rejects it, a returned value
    fulfils it.  This is what the runtime does for every returned value
    that is not a [thenable]; a returned thenable would have its [then]
    called, which is code from outside this file and is not modelled.  The
    values the file builds itself and returns ([undefined], the object
    [{ apiUrl }] of the mapper, the [settings] slot) are not thenables.
    The one value that [get] returns as the caller gave it is its default:
    the properties below that speak of a returned default assume
    [thenable defaultValue = false]. *)
Definition complete (p : pid) (c : completion) (st : state) : state :=
  settle p (settled_of c) st.

(** [PerformPromiseThen]: a reaction on a pending promise waits; on a
    settled one it is scheduled at once. *)
Definition attach (p : pid) (r : reaction) (st : state) : state :=
  match heap st !! p with
  | Some (mkCell s None rs) => set_heap (<[p := mkCell s None (rs ++ [r])]> (heap st)) st
  | Some (mkCell s (Some o) _) => enqueue (JReact r o) st
  | None => st
  end.

(** ** [UiSettings.load] and [UiSettings.get] *)

(** [load()] up to its first suspension.  The result is the promise of the
    call. *)
Definition load (st : state) : pid * state :=
  let '(l, st) := alloc SLoadCall st in
  if negb (is_null (settings st)) then
    (* return this.settings *)
    (l, complete l (Return (settings st)) st)
  else
    match promise st with
    | Some p =>
        (* return this.promise *)
        (l, enqueue (JThenable l p) st)
    | None =>
        (* this.promise = new Promise(resolve => axios.get(..).catch(..)
                                        .then(mapSettingsResponse).then(resolve)) *)
        let '(p, st) := alloc SNewPromise st in
        let '(p0, st) := alloc SAxiosGet st in
        let st := set_requests
                    (requests st ++ [mkRequest "GET" "/ui-settings" (baseUrl st) p0]) st in
        let '(p1, st) := alloc SCatch st in
        let st := attach p0 (RCatch p1) st in
        let '(p2, st) := alloc SThenMap st in
        let st := attach p1 (RThenMap p2) st in
        let '(p3, st) := alloc SThenResolve st in
        let st := attach p2 (RThenResolve p p3) st in
        let st := set_promise (Some p) st in
        (* const settings = await this.promise *)
        (l, attach p (RAwaitLoad l) st)
    end.

(** [get(setting, defaultValue)] up to [await this.load()]. *)
Definition get (setting : string) (defaultValue : value) (st : state) : pid * state :=
  let '(g, st) := alloc (SGetCall setting defaultValue) st in
  let '(l, st) := load st in
  (g, attach l (RAwaitGet g setting defaultValue) st).

(** ** The event loop *)

Definition run_reaction (r : reaction) (o : settled) (st : state) : state :=
  match r, o with
  | RCatch d, Fulfilled v => settle d (Fulfilled v) st
  | RCatch d, Rejected e =>
      let '(shown, c) := on_fetch_error e in
      complete d c (set_toasts (toasts st ++ shown) st)
  | RThenMap d, Fulfilled v => complete d (mapSettingsResponse v) st
  | RThenMap d, Rejected e => settle d (Rejected e) st
  | RThenResolve p d, Fulfilled v =>
      complete d (Return VUndefined) (settle p (Fulfilled v) st)
  | RThenResolve p d, Rejected e => settle d (Rejected e) st
  | RAwaitLoad l, Fulfilled v =>
      (* return this.settings = settings *)
      complete l (Return v) (set_settings v st)
  | RAwaitLoad l, Rejected e => complete l (Throw e) st
  | RAwaitGet g setting defaultValue, Fulfilled _ =>
      complete g (get_resume (settings st) setting defaultValue) st
  | RAwaitGet g _ _, Rejected e => complete g (Throw e) st
  | RAdopt l, _ => settle l o st
  end.

Definition run_job (j : job) (st : state) : state :=
  match j with
  | JReact r o => run_reaction r o st
  | JThenable l p => attach p (RAdopt l) st
  end.

Inductive event : Type :=
| CallLoad
| CallGet (setting : string) (defaultValue : value)
| FetchOk (response : value)
| FetchFail (error : value)
| Tick
| EnvChange (e : environment).

Definition net_settle (o : settled) (st : state) : state :=
  match requests st with
  | [] => st
  | rq :: _ => settle (req_promise rq) o st
  end.

Definition step (ev : event) (st : state) : state :=
  match ev with
  | CallLoad => snd (load st)
  | CallGet setting defaultValue => snd (get setting defaultValue st)
  | FetchOk response => net_settle (Fulfilled response) st
  | FetchFail error => net_settle (Rejected error) st
  | Tick =>
      match queue st with
      | [] => st
      | j :: q => run_job j (set_queue q st)
      end
  | EnvChange e => set_env e st
  end.

Definition run (evs : list event) (st : state) : state :=
  fold_left (fun s ev => step ev s) evs st.

(** Running the microtask queue until it is empty.  Every tick lowers
    [weight], which therefore is enough fuel. *)
Fixpoint job_weight (q : list job) : nat :=
  match q with
  | [] => 0
  | JReact _ _ :: q => 1 + job_weight q
  | JThenable _ _ :: q => 3 + job_weight q
  end.

Fixpoint heap_weight (h : list cell) : nat :=
  match h with
  | [] => 0
  | c :: h => 2 * length (reactions c) + heap_weight h
  end.

Definition weight (st : state) : nat :=
  job_weight (queue st) + heap_weight (heap st).

Definition ticks (n : nat) (st : state) : state :=
  run (repeat Tick n) st.

Definition drain (st : state) : state :=
  ticks (weight st) st.

(** ** Reading the promise store *)

Definition hsite (h : list cell) (q : pid) : option site :=
  match h !! q with Some c => Some (created_by c) | None => None end.

Definition hpst (h : list cell) (q : pid) : option settled :=
  match h !! q with Some c => pstate c | None => None end.

Definition hrs (h : list cell) (q : pid) : list reaction :=
  match h !! q with Some c => reactions c | None => [] end.

Abbreviation site_at st q := (hsite (heap st) q).
Abbreviation pst st q := (hpst (heap st) q).
Abbreviation rs st q := (hrs (heap st) q).

(** The promises handed to the callers of [load] and of [get]. *)
Definition is_load (st : state) (l : pid) : Prop :=
  site_at st l = Some SLoadCall.

Definition is_get (st : state) (g : pid) (setting : string) (defaultValue : value)
  : Prop :=
  site_at st g = Some (SGetCall setting defaultValue).

(** The promise of the outstanding request, and its outcome. *)
Definition fetch_outcome (st : state) : option settled :=
  match requests st with
  | [] => None
  | rq :: _ => pst st (req_promise rq)
  end.

(** ** The invariant of the event loop *)

(** What each link of the chain in [load] makes of the outcome before it.
    - [.catch(handler)]: a fulfilment passes through; a rejection becomes
      the completion of the handler;
    - [.then(mapSettingsResponse)]: a rejection passes through;
    - [.then(resolve)]: [resolve] is only called on a fulfilment, and
      returns [undefined]. *)
Definition catch_outcome (o : settled) : settled :=
  match o with
  | Fulfilled v => Fulfilled v
  | Rejected e => settled_of (snd (on_fetch_error e))
  end.

Definition catch_toasts (o : settled) : list toast :=
  match o with
  | Fulfilled _ => []
  | Rejected e => fst (on_fetch_error e)
  end.

Definition map_outcome (o : settled) : settled :=
  match o with
  | Fulfilled v => settled_of (mapSettingsResponse v)
  | Rejected e => Rejected e
  end.

Definition then_resolve_outcome (o : settled) : settled :=
  match o with
  | Fulfilled _ => Fulfilled VUndefined
  | Rejected e => Rejected e
  end.

Definition resolve_outcome (o : settled) : option settled :=
  match o with
  | Fulfilled v => Some (Fulfilled v)
  | Rejected _ => None
  end.

(** What the promise built by [new Promise] settles to, given the outcome
    of the request: the whole chain composed. *)
Definition chain_outcome (o : settled) : option settled :=
  resolve_outcome (map_outcome (catch_outcome o)).

Fixpoint count_catch (q : list job) : nat :=
  match q with
  | [] => 0
  | JReact (RCatch _) _ :: q => S (count_catch q)
  | _ :: q => count_catch q
  end.

Definition is_adopt_job (j : job) : Prop :=
  match j with
  | JReact (RAdopt _) _ => True
  | _ => False
  end.

(** A link [src.then(..)] deriving [dst]: while [src] is pending the
    reaction [r] waits on it; once [src] is settled with [o], either the
    job is in the queue or [dst] is settled with [f o]. *)
Definition link (st : state) (src dst : pid) (r : reaction) (f : settled -> settled)
  : Prop :=
  match pst st src with
  | None => rs st src = [r] /\ pst st dst = None
  | Some o =>
      rs st src = [] /\
      match pst st dst with
      | None => In (JReact r o) (queue st)
      | Some o' => o' = f o
      end
  end.

(** The settings are cached: the slot holds [v], the value the promise of
    [new Promise] was fulfilled with. *)
Definition loaded (st : state) (p : pid) (v : value) : Prop :=
  settings st = v /\ pst st p = Some (Fulfilled v).

(** A pending [load] call will be woken up. *)
Definition woken (st : state) (p l : pid) : Prop :=
  In (JThenable l p) (queue st)
  \/ In (RAwaitLoad l) (rs st p)
  \/ In (RAdopt l) (rs st p)
  \/ (exists o, In (JReact (RAwaitLoad l) o) (queue st))
  \/ (exists o, In (JReact (RAdopt l) o) (queue st)).

Definition job_ok (st : state) (p : pid) (j : job) : Prop :=
  match j with
  | JThenable l q => q = p /\ is_load st l
  | JReact (RCatch d) o => d = p + 2 /\ pst st (p + 1) = Some o
  | JReact (RThenMap d) o => d = p + 3 /\ pst st (p + 2) = Some o
  | JReact (RThenResolve q d) o => q = p /\ d = p + 4 /\ pst st (p + 3) = Some o
  | JReact (RAwaitLoad l) o => is_load st l /\ pst st p = Some o
  | JReact (RAdopt l) o => is_load st l /\ pst st p = Some o
  | JReact (RAwaitGet g k d) o =>
      is_get st g k d /\ exists v, o = Fulfilled v /\ loaded st p v
  end.

Definition load_ok (st : state) (p l : pid) : Prop :=
  match pst st l with
  | Some o => rs st l = [] /\ exists v, o = Fulfilled v /\ loaded st p v
  | None =>
      (forall r, In r (rs st l) -> exists g k d, r = RAwaitGet g k d /\ is_get st g k d)
      /\ woken st p l
  end.

(** A pending [get] call will be woken up. *)
Definition get_waits (st : state) (g : pid) (k : string) (d : value) : Prop :=
  (exists l, is_load st l /\ In (RAwaitGet g k d) (rs st l))
  \/ (exists o, In (JReact (RAwaitGet g k d) o) (queue st)).

Definition get_ok (st : state) (p g : pid) (k : string) (d : value) : Prop :=
  rs st g = [] /\
  match pst st g with
  | Some o => exists v, loaded st p v /\ o = settled_of (get_resume v k d)
  | None => get_waits st g k d
  end.

(** After the first call of [load]: [p] is the promise in the [promise]
    slot, and [p + 1 .. p + 4] are the promises of [axios.get], [.catch],
    [.then(mapSettingsResponse)] and [.then(resolve)]. *)
Record chain_inv (st : state) (p : pid) : Prop := {
  c_requests : requests st = [mkRequest "GET" "/ui-settings" (baseUrl st) (p + 1)];
  c_site_p : site_at st p = Some SNewPromise;
  c_site_0 : site_at st (p + 1) = Some SAxiosGet;
  c_site_1 : site_at st (p + 2) = Some SCatch;
  c_site_2 : site_at st (p + 3) = Some SThenMap;
  c_site_3 : site_at st (p + 4) = Some SThenResolve;
  c_link_0 : link st (p + 1) (p + 2) (RCatch (p + 2)) catch_outcome;
  c_link_1 : link st (p + 2) (p + 3) (RThenMap (p + 3)) map_outcome;
  c_link_2 : link st (p + 3) (p + 4) (RThenResolve p (p + 4)) then_resolve_outcome;
  c_last : rs st (p + 4) = [];
  c_resolved :
    pst st p = match pst st (p + 4), pst st (p + 3) with
               | Some _, Some o => resolve_outcome o
               | _, _ => None
               end;
  c_toasts :
    toasts st = match pst st (p + 2), pst st (p + 1) with
                | Some _, Some o => catch_toasts o
                | _, _ => []
                end;
  c_count :
    count_catch (queue st) + match pst st (p + 2) with Some _ => 1 | None => 0 end <= 1;
  c_waiting :
    match pst st p with
    | None => exists l ls, rs st p = RAwaitLoad l :: map RAdopt ls
                           /\ forall x, In x (l :: ls) -> is_load st x
    | Some _ => rs st p = []
    end;
  c_settings : settings st = VNull \/ pst st p = Some (Fulfilled (settings st));
  c_fifo :
    forall v, pst st p = Some (Fulfilled v) -> settings st = VNull ->
      exists pre l post,
        queue st = pre ++ JReact (RAwaitLoad l) (Fulfilled v) :: post
        /\ forall j, In j pre -> ~ is_adopt_job j;
  c_jobs : forall j, In j (queue st) -> job_ok st p j;
  c_loads : forall l, is_load st l -> load_ok st p l;
  c_gets : forall g k d, is_get st g k d -> get_ok st p g k d
}.

(** Before the first call nothing has happened. *)
Definition Inv (st : state) : Prop :=
  match promise st with
  | None =>
      settings st = VNull /\ heap st = [] /\ queue st = []
      /\ requests st = [] /\ toasts st = []
  | Some p => chain_inv st p
  end.

(** The outcome of [this.promise], of the promise of [.catch(..)] (the
    argument of [mapSettingsResponse]) and of the promise of
    [.then(mapSettingsResponse)] (the argument of [resolve]). *)
Definition promise_outcome (st : state) : option settled :=
  match promise st with Some p => pst st p | None => None end.

Definition caught (st : state) : option settled :=
  match promise st with Some p => pst st (p + 2) | None => None end.

Definition mapped (st : state) : option settled :=
  match promise st with Some p => pst st (p + 3) | None => None end.

(** ** Auxiliary notions of the proofs *)

(** [st'] is [st] with the cell of [a] overwritten. *)
Definition updated (st st' : state) (a : pid) (o : option settled) (r : list reaction)
  : Prop :=
  (forall q, site_at st' q = site_at st q)
  /\ (forall q, pst st' q = if decide (q = a) then o else pst st q)
  /\ (forall q, rs st' q = if decide (q = a) then r else rs st q).

(** A job whose promise is settled already has nothing left to do. *)
Definition spent (st : state) (j : job) : Prop :=
  match j with
  | JThenable _ _ => False
  | JReact (RCatch d) _ | JReact (RThenMap d) _ | JReact (RThenResolve _ d) _ =>
      pst st d <> None
  | JReact (RAwaitLoad l) _ | JReact (RAdopt l) _ => pst st l <> None
  | JReact (RAwaitGet g _ _) _ => pst st g <> None
  end.

(** [grows st st']: the promises of [st] are promises of [st'], created by
    the same expression, and the settled ones are settled the same way. *)
Definition grows (st st' : state) : Prop :=
  (forall q s, site_at st q = Some s -> site_at st' q = Some s)
  /\ (forall q o, pst st q = Some o -> pst st' q = Some o).

Definition first_chain (n : pid) (waiting : list reaction) : list cell :=
  [ mkCell SNewPromise None waiting;
    mkCell SAxiosGet None [RCatch (n + 2)];
    mkCell SCatch None [RThenMap (n + 3)];
    mkCell SThenMap None [RThenResolve n (n + 4)];
    mkCell SThenResolve None [] ].

(** ** Example inputs *)

Definition example_env : environment := mkEnv "production" "https://orion.example".

Definition example_response : value :=
  VObj [("data"%string, VObj [("api_url"%string, VStr "http://example.com")]);
        ("status"%string, VNum 200)].

Definition example_settings : value :=
  VObj [("apiUrl"%string, VStr "http://example.com")].

(** A connectivity failure and an HTTP failure, as [axios] rejects. *)
Definition network_error : value :=
  VObj [("message"%string, VStr "Network Error")].

Definition http_error : value :=
  VObj [("message"%string, VStr "Request failed with status code 500");
        ("status"%string, VNum 500)].

(** ** Lemmas on the promise store *)

Section heap_lemmas.
Implicit Types (h : list cell) (q : pid) (c : cell).

Lemma hsite_lt h q s : hsite h q = Some s -> q < length h.
Proof.
  unfold hsite. destruct (h !! q) eqn:E; [|discriminate].
  intros _. eapply lookup_lt_Some; eauto.
Qed.

Lemma hpst_lt h q o : hpst h q = Some o -> q < length h.
Proof.
  unfold hpst. destruct (h !! q) eqn:E; [|discriminate].
  intros _. eapply lookup_lt_Some; eauto.
Qed.

Lemma lookup_cell h q s :
  hsite h q = Some s -> h !! q = Some (mkCell s (hpst h q) (hrs h q)).
Proof.
  unfold hsite, hpst, hrs. destruct (h !! q) as [[s' o' r']|]; simpl; congruence.
Qed.

(** Overwriting an allocated cell. *)
Lemma hsite_insert h q c q' :
  q < length h ->
  hsite (<[q := c]> h) q' = if decide (q' = q) then Some (created_by c) else hsite h q'.
Proof.
  intros Hlt. unfold hsite. case_decide as E.
  - subst. rewrite list_lookup_insert_eq; auto.
  - rewrite list_lookup_insert_ne; auto.
Qed.

Lemma hpst_insert h q c q' :
  q < length h ->
  hpst (<[q := c]> h) q' = if decide (q' = q) then pstate c else hpst h q'.
Proof.
  intros Hlt. unfold hpst. case_decide as E.
  - subst. rewrite list_lookup_insert_eq; auto.
  - rewrite list_lookup_insert_ne; auto.
Qed.

Lemma hrs_insert h q c q' :
  q < length h ->
  hrs (<[q := c]> h) q' = if decide (q' = q) then reactions c else hrs h q'.
Proof.
  intros Hlt. unfold hrs. case_decide as E.
  - subst. rewrite list_lookup_insert_eq; auto.
  - rewrite list_lookup_insert_ne; auto.
Qed.

(** Allocating cells at the end. *)
Lemma hsite_app h cs q :
  hsite (h ++ cs) q = if decide (q < length h) then hsite h q else hsite cs (q - length h).
Proof.
  unfold hsite. case_decide.
  - rewrite lookup_app_l; auto.
  - rewrite lookup_app_r; auto with lia.
Qed.

Lemma hpst_app h cs q :
  hpst (h ++ cs) q = if decide (q < length h) then hpst h q else hpst cs (q - length h).
Proof.
  unfold hpst. case_decide.
  - rewrite lookup_app_l; auto.
  - rewrite lookup_app_r; auto with lia.
Qed.

Lemma hrs_app h cs q :
  hrs (h ++ cs) q = if decide (q < length h) then hrs h q else hrs cs (q - length h).
Proof.
  unfold hrs. case_decide.
  - rewrite lookup_app_l; auto.
  - rewrite lookup_app_r; auto with lia.
Qed.

Lemma heap_weight_insert h q c :
  q < length h ->
  heap_weight (<[q := c]> h) + 2 * length (hrs h q)
  = heap_weight h + 2 * length (reactions c).
Proof.
  revert q. induction h as [|c0 h IH]; intros q Hlt; simpl in Hlt; [lia|].
  destruct q as [|q].
  - change (hrs (c0 :: h) 0) with (reactions c0).
    change (<[0 := c]> (c0 :: h)) with (c :: h).
    cbn [heap_weight]. lia.
  - specialize (IH q ltac:(lia)).
    change (hrs (c0 :: h) (S q)) with (hrs h q).
    change (<[S q := c]> (c0 :: h)) with (c0 :: <[q := c]> h).
    cbn [heap_weight]. lia.
Qed.

Lemma job_weight_app (q1 q2 : list job) :
  job_weight (q1 ++ q2) = job_weight q1 + job_weight q2.
Proof.
  induction q1 as [|[r o|l p] q1 IH]; simpl; lia.
Qed.

Lemma job_weight_reactions (l : list reaction) o :
  job_weight (map (fun r => JReact r o) l) = length l.
Proof. induction l; simpl; lia. Qed.
End heap_lemmas.

(** *** What the promise operations do to an allocated promise *)

Section operations.
Variables (st : state) (q : pid).

Lemma settle_pending o s :
  site_at st q = Some s -> pst st q = None ->
  settle q o st
  = set_queue (queue st ++ map (fun r => JReact r o) (rs st q))
              (set_heap (<[q := mkCell s (Some o) []]> (heap st)) st).
Proof.
  intros Hs Hp. unfold settle. rewrite (lookup_cell _ _ _ Hs), Hp. reflexivity.
Qed.

Lemma settle_settled o o' : pst st q = Some o' -> settle q o st = st.
Proof.
  unfold settle, hpst. destruct (heap st !! q) as [[s [x|] r]|]; simpl; congruence.
Qed.

Lemma attach_pending r s :
  site_at st q = Some s -> pst st q = None ->
  attach q r st = set_heap (<[q := mkCell s None (rs st q ++ [r])]> (heap st)) st.
Proof.
  intros Hs Hp. unfold attach. rewrite (lookup_cell _ _ _ Hs), Hp. reflexivity.
Qed.

Lemma attach_settled r o :
  pst st q = Some o -> attach q r st = enqueue (JReact r o) st.
Proof.
  unfold attach, hpst. destruct (heap st !! q) as [[s [x|] rr]|]; simpl; congruence.
Qed.
End operations.

(** ** The microtask queue drains *)

Section termination.
Lemma weight_settle q o st : weight (settle q o st) <= weight st.
Proof.
  unfold settle. destruct (heap st !! q) as [[s [x|] r]|] eqn:E; auto.
  unfold weight; simpl.
  pose proof (heap_weight_insert (heap st) q (mkCell s (Some o) [])
                (lookup_lt_Some _ _ _ E)) as Hw.
  unfold hrs in Hw. rewrite E in Hw. simpl in Hw.
  rewrite job_weight_app, job_weight_reactions. lia.
Qed.

Lemma weight_attach q r st : weight (attach q r st) <= weight st + 2.
Proof.
  unfold attach. destruct (heap st !! q) as [[s [x|] rr]|] eqn:E.
  - unfold weight; simpl. rewrite job_weight_app. simpl. lia.
  - unfold weight; simpl.
    pose proof (heap_weight_insert (heap st) q (mkCell s None (rr ++ [r]))
                  (lookup_lt_Some _ _ _ E)) as Hw.
    unfold hrs in Hw. rewrite E in Hw. simpl in Hw.
    rewrite length_app in Hw. simpl in Hw. lia.
  - lia.
Qed.

Lemma weight_complete q c st : weight (complete q c st) <= weight st.
Proof. apply weight_settle. Qed.

Lemma weight_run_reaction r o st : weight (run_reaction r o st) <= weight st.
Proof.
  destruct r, o; simpl;
    repeat match goal with
           | |- context [on_fetch_error ?e] => destruct (on_fetch_error e)
           end;
    repeat first
      [ apply weight_settle
      | apply weight_complete
      | eapply Nat.le_trans; [apply weight_complete|]
      | eapply Nat.le_trans; [apply weight_settle|] ];
    unfold weight; simpl; lia.
Qed.

Lemma weight_tick st :
  queue st <> [] -> weight (step Tick st) < weight st.
Proof.
  intros Hq. simpl. destruct (queue st) as [|[r o|l p] rest] eqn:E; [congruence| |].
  - simpl. pose proof (weight_run_reaction r o (set_queue rest st)) as H.
    unfold weight in *. simpl in *. rewrite E. simpl. lia.
  - simpl. pose proof (weight_attach p (RAdopt l) (set_queue rest st)) as H.
    unfold weight in *. simpl in *. rewrite E. simpl. lia.
Qed.

Lemma tick_quiescent st : queue st = [] -> step Tick st = st.
Proof. intros H. simpl. rewrite H. reflexivity. Qed.

Lemma ticks_S n st : ticks (S n) st = ticks n (step Tick st).
Proof. reflexivity. Qed.

Lemma ticks_idle n st : queue st = [] -> ticks n st = st.
Proof.
  intros H. induction n as [|n IH]; [reflexivity|].
  rewrite ticks_S, tick_quiescent; auto.
Qed.

Lemma ticks_quiescent n st : weight st <= n -> queue (ticks n st) = [].
Proof.
  revert st. induction n as [|n IH]; intros st Hw.
  - unfold weight in Hw. change (ticks 0 st) with st.
    destruct (queue st) as [|[r o|l p] rest]; simpl in *; auto; lia.
  - rewrite ticks_S. destruct (queue st) as [|j rest] eqn:E.
    + rewrite <- ticks_S, ticks_idle; auto.
    + apply IH. pose proof (weight_tick st) as H. rewrite E in H.
      specialize (H ltac:(discriminate)). lia.
Qed.

Lemma drain_quiescent st : queue (drain st) = [].
Proof. apply ticks_quiescent. lia. Qed.

Lemma run_app evs1 evs2 st : run (evs1 ++ evs2) st = run evs2 (run evs1 st).
Proof. unfold run. apply fold_left_app. Qed.

End termination.

(** ** Preservation of the invariant *)

Lemma init_inv e : Inv (init e).
Proof. unfold Inv; simpl. auto. Qed.

Lemma hsite_update h q s o r q' :
  hsite h q = Some s -> hsite (<[q := mkCell s o r]> h) q' = hsite h q'.
Proof.
  intros H. rewrite hsite_insert by (eapply hsite_lt; eauto).
  case_decide; subst; auto.
Qed.

Lemma updated_insert st st' a s o r :
  site_at st a = Some s ->
  heap st' = <[a := mkCell s o r]> (heap st) ->
  updated st st' a o r.
Proof.
  intros Hs Hh. unfold updated. rewrite Hh.
  split; [|split]; intros q.
  - apply hsite_update; auto.
  - apply hpst_insert. eapply hsite_lt; eauto.
  - apply hrs_insert. eapply hsite_lt; eauto.
Qed.

Lemma count_catch_app q1 q2 : count_catch (q1 ++ q2) = count_catch q1 + count_catch q2.
Proof. induction q1 as [|[[]|] q1 IH]; simpl; lia. Qed.

Lemma count_catch_reactions (l : list reaction) o :
  (forall d, ~ In (RCatch d) l) -> count_catch (map (fun r => JReact r o) l) = 0.
Proof.
  induction l as [|r l IH]; intros H; simpl; auto.
  destruct r; simpl; try (apply IH; intros d' Hd; apply (H d'); right; exact Hd).
  exfalso. eapply H. left. reflexivity.
Qed.

Lemma fifo_app (Q added : list job) v :
  (exists pre l post, Q = pre ++ JReact (RAwaitLoad l) (Fulfilled v) :: post
                      /\ forall j, In j pre -> ~ is_adopt_job j) ->
  exists pre l post, Q ++ added = pre ++ JReact (RAwaitLoad l) (Fulfilled v) :: post
                     /\ forall j, In j pre -> ~ is_adopt_job j.
Proof.
  intros (pre & l & post & -> & H). exists pre, l, (post ++ added).
  split; auto. rewrite <- app_assoc. reflexivity.
Qed.

Lemma fifo_pop (j : job) (rest added : list job) v :
  (forall l, j <> JReact (RAwaitLoad l) (Fulfilled v)) ->
  (exists pre l post, j :: rest = pre ++ JReact (RAwaitLoad l) (Fulfilled v) :: post
                      /\ forall j, In j pre -> ~ is_adopt_job j) ->
  exists pre l post, rest ++ added = pre ++ JReact (RAwaitLoad l) (Fulfilled v) :: post
                     /\ forall j, In j pre -> ~ is_adopt_job j.
Proof.
  intros Hj (pre & l & post & E & H). destruct pre as [|j' pre]; simpl in E.
  - injection E as E _. exfalso. eapply Hj; eauto.
  - injection E as -> ->. apply fifo_app. exists pre, l, post. split; auto.
    intros x Hx. apply H. right. exact Hx.
Qed.

Ltac dec := repeat first [rewrite decide_True by lia | rewrite decide_False by lia].

Ltac in_queue :=
  repeat rewrite in_app_iff in *; simpl in *;
  intuition (auto; try congruence; try discriminate).

Section distinct.
Variables (st : state) (p : pid).
Hypothesis Hinv : chain_inv st p.

Lemma chain_distinct_load l :
  is_load st l -> l <> p /\ l <> p + 1 /\ l <> p + 2 /\ l <> p + 3 /\ l <> p + 4.
Proof.
  destruct Hinv. unfold is_load. intros Hl.
  repeat split; intros ->; congruence.
Qed.

Lemma chain_distinct_get g k d :
  is_get st g k d -> g <> p /\ g <> p + 1 /\ g <> p + 2 /\ g <> p + 3 /\ g <> p + 4.
Proof.
  destruct Hinv. unfold is_get. intros Hl.
  repeat split; intros ->; congruence.
Qed.

Lemma load_get_distinct l g k d : is_load st l -> is_get st g k d -> l <> g.
Proof. unfold is_load, is_get. intros H1 H2 ->. congruence. Qed.

(** The promise of [new Promise] is only ever fulfilled, with an object
    built by [mapSettingsResponse]. *)
Lemma chain_resolved o :
  pst st p = Some o ->
  exists r u, pst st (p + 2) = Some (Fulfilled r)
              /\ mapSettingsResponse r = Return (VObj [("apiUrl"%string, u)])
              /\ o = Fulfilled (VObj [("apiUrl"%string, u)]).
Proof.
  destruct Hinv as [_ _ _ _ _ _ _ L1 L2 _ Hres _ _ _ _ _ _ _ _].
  intros Hp. rewrite Hp in Hres. unfold link in *.
  destruct (pst st (p + 4)); [|discriminate].
  destruct (pst st (p + 3)) as [o2|]; [|discriminate].
  destruct (pst st (p + 2)) as [o1|] eqn:E1; [|destruct L1; discriminate].
  destruct L1 as [_ ->].
  destruct o1 as [r|e]; simpl in Hres; [|discriminate].
  destruct (mapSettingsResponse r) as [w|w] eqn:Em; simpl in Hres; [|discriminate].
  assert (exists u, w = VObj [("apiUrl"%string, u)]) as [u ->].
  { unfold mapSettingsResponse in Em.
    destruct (get_prop r "data") as [x|]; [|discriminate].
    destruct (get_prop x "api_url") as [u|]; [|discriminate].
    exists u. congruence. }
  exists r, u. repeat split; congruence.
Qed.

Lemma loaded_not_null v : loaded st p v -> is_null v = false.
Proof.
  intros [_ H]. destruct (chain_resolved _ H) as (r & u & _ & _ & E).
  injection E as ->. reflexivity.
Qed.

(** No [.catch] job is queued while the request is pending. *)
Lemma no_catch_job Q :
  pst st (p + 1) = None -> (forall j, In j Q -> job_ok st p j) -> count_catch Q = 0.
Proof.
  intros E0. induction Q as [|j Q IH]; intros Hjobs; simpl; auto.
  assert (count_catch Q = 0) by (apply IH; intros; apply Hjobs; right; auto).
  destruct j as [[] ?|]; auto.
  specialize (Hjobs _ (or_introl eq_refl)). simpl in Hjobs. destruct Hjobs; congruence.
Qed.
End distinct.

Lemma same_fwd st st' :
  (forall q, site_at st' q = site_at st q) ->
  forall q s, site_at st q = Some s -> site_at st' q = Some s.
Proof. intros H q s. rewrite H. auto. Qed.

Lemma is_load_mono st st' l :
  (forall q, site_at st' q = site_at st q) -> is_load st' l <-> is_load st l.
Proof. intros H. unfold is_load. rewrite H. tauto. Qed.

Lemma is_get_mono st st' g k d :
  (forall q, site_at st' q = site_at st q) -> is_get st' g k d <-> is_get st g k d.
Proof. intros H. unfold is_get. rewrite H. tauto. Qed.

Section mono.
Variables (st st' : state) (p : pid).
Hypothesis Hfwd : forall q s, site_at st q = Some s -> site_at st' q = Some s.
Hypothesis Hkeep : forall q o, pst st q = Some o -> pst st' q = Some o.
Hypothesis Hloaded : forall v, loaded st p v -> loaded st' p v.

Lemma is_load_fwd l : is_load st l -> is_load st' l.
Proof. unfold is_load. auto. Qed.

Lemma is_get_fwd g k d : is_get st g k d -> is_get st' g k d.
Proof. unfold is_get. auto. Qed.

Lemma job_ok_mono j : job_ok st p j -> job_ok st' p j.
Proof.
  pose proof is_load_fwd. pose proof is_get_fwd.
  destruct j as [[] o|l q]; simpl; intuition eauto.
  destruct H3 as (v & -> & Hv). eauto.
Qed.

Lemma load_ok_frame l :
  pst st' l = pst st l -> rs st' l = rs st l ->
  (pst st l = None -> woken st p l -> woken st' p l) ->
  load_ok st p l -> load_ok st' p l.
Proof.
  unfold load_ok. intros -> -> Hw. destruct (pst st l).
  - intros (? & v & ? & ?). eauto 6.
  - intros [Hr H]. split; auto.
    intros r Hr'. destruct (Hr r Hr') as (g & k & d & ? & ?). exists g, k, d.
    split; auto. apply is_get_fwd; auto.
Qed.

Lemma get_ok_frame g k d :
  pst st' g = pst st g -> rs st' g = rs st g ->
  (pst st g = None -> get_waits st g k d -> get_waits st' g k d) ->
  get_ok st p g k d -> get_ok st' p g k d.
Proof.
  unfold get_ok. intros -> -> Hw [Hr H]. split; auto. destruct (pst st g).
  - destruct H as (v & ? & ?). eauto.
  - apply Hw; auto.
Qed.

Lemma link_frame src dst r f :
  pst st' src = pst st src -> rs st' src = rs st src -> pst st' dst = pst st dst ->
  (forall o, pst st dst = None -> In (JReact r o) (queue st) -> In (JReact r o) (queue st')) ->
  link st src dst r f -> link st' src dst r f.
Proof.
  unfold link. intros -> -> -> Hq. destruct (pst st src); auto.
  intros [? H]. split; auto. destruct (pst st dst); auto.
Qed.
End mono.

Ltac frame_link L Hpst Hrs :=
  eapply link_frame; [| | | |exact L];
  [ rewrite ?Hpst; dec; auto
  | rewrite ?Hrs; dec; auto
  | rewrite ?Hpst; dec; auto
  | ].

Ltac open_inv H :=
  let I := fresh "I" in
  pose proof H as I;
  destruct I as [Hreq HsP Hs0 Hs1 Hs2 Hs3 L0 L1 L2 Hlast Hres Htoasts Hcount
                   Hwait Hset Hfifo Hjobs Hloads Hgets].

Lemma count_catch_tail j Q : count_catch Q <= count_catch (j :: Q).
Proof. destruct j as [[]|]; simpl; lia. Qed.

Section transitions.
Variables (st st' : state) (p : pid).
Hypothesis Hinv : chain_inv st p.
Hypothesis Hreq' : requests st' = requests st.
Hypothesis Hbase' : baseUrl st' = baseUrl st.

(** Dropping a spent job from the head of the queue. *)
Lemma inv_pop j rest :
  queue st = j :: rest -> spent st j ->
  heap st' = heap st -> queue st' = rest ->
  settings st' = settings st -> toasts st' = toasts st ->
  chain_inv st' p.
Proof.
  intros Eq Hsp Hh Hq Hset' Htoasts'. open_inv Hinv.
  assert (Hj : job_ok st p j) by (apply Hjobs; rewrite Eq; left; auto).
  assert (Hsite : forall q, site_at st' q = site_at st q) by (rewrite Hh; auto).
  assert (Hpst : forall q, pst st' q = pst st q) by (rewrite Hh; auto).
  assert (Hrs : forall q, rs st' q = rs st q) by (rewrite Hh; auto).
  pose proof (same_fwd _ _ Hsite) as Hfwd.
  assert (Hkeep : forall q o, pst st q = Some o -> pst st' q = Some o)
    by (intros; rewrite Hpst; auto).
  assert (Hloaded : forall v, loaded st p v -> loaded st' p v).
  { intros v [H1 H2]. split; [congruence|auto]. }
  rewrite Eq in *.
  constructor; rewrite ?Hsite, ?Hpst, ?Hrs, ?Hq, ?Hset', ?Htoasts', ?Hreq', ?Hbase'; auto.
  - eapply link_frame; eauto. rewrite Hq, Eq. intros o Hn [->|H]; auto.
    simpl in Hsp. congruence.
  - eapply link_frame; eauto. rewrite Hq, Eq. intros o Hn [->|H]; auto.
    simpl in Hsp. congruence.
  - eapply link_frame; eauto. rewrite Hq, Eq. intros o Hn [->|H]; auto.
    simpl in Hsp. congruence.
  - pose proof (count_catch_tail j rest). lia.
  - destruct (pst st p); auto. destruct Hwait as (l & ls & ? & Hl). exists l, ls.
    split; auto. intros x Hx. apply (is_load_mono st st'); auto.
  - intros v Hv Hn. replace rest with (rest ++ []) by apply app_nil_r.
    eapply fifo_pop; [|apply Hfifo; auto]. intros l ->. simpl in Hsp, Hj. destruct Hj as [Hl _].
    specialize (Hloads l Hl). unfold load_ok in Hloads.
    destruct (pst st l); [|congruence]. destruct Hloads as (_ & w & _ & Hw).
    pose proof (loaded_not_null _ _ Hinv _ Hw) as Hnn. destruct Hw as [Hw _].
    rewrite Hn in Hw. subst w. discriminate.
  - intros x Hx. eapply job_ok_mono; eauto. apply Hjobs. right. exact Hx.
  - intros l Hl. apply (is_load_mono st st') in Hl; auto.
    eapply load_ok_frame; eauto. unfold woken. rewrite Hq, Hrs, Eq.
    intros Hn [[->|Hw]|[Hw|[Hw|[[x [->|Hw]]|[x [->|Hw]]]]]]; simpl in Hsp; eauto 8; tauto.
  - intros g k d Hg. apply (is_get_mono st st') in Hg; auto.
    eapply get_ok_frame; eauto. unfold get_waits. rewrite Hq, Eq.
    intros Hn [(l & Hl & Hin)|[x [->|Hin]]]; simpl in Hsp; eauto; try tauto.
    left. exists l. rewrite Hrs. split; auto. apply (is_load_mono st st'); auto.
Qed.

(** [l] starts to follow the pending promise of [new Promise]. *)
Lemma inv_thenable_pending l rest :
  queue st = JThenable l p :: rest -> pst st p = None ->
  updated st st' p None (rs st p ++ [RAdopt l]) -> queue st' = rest ->
  settings st' = settings st -> toasts st' = toasts st ->
  chain_inv st' p.
Proof.
  intros Eq EP (Hsite & Hpst & Hrs) Hq Hset' Htoasts'. open_inv Hinv.
  assert (Hj : job_ok st p (JThenable l p)) by (apply Hjobs; rewrite Eq; left; auto).
  destruct Hj as [_ Hl].
  pose proof (same_fwd _ _ Hsite) as Hfwd.
  assert (Hkeep : forall q o, pst st q = Some o -> pst st' q = Some o).
  { intros q o H. rewrite Hpst. case_decide; subst; congruence. }
  assert (Hloaded : forall v, loaded st p v -> loaded st' p v).
  { intros v [H1 H2]. split; [congruence|auto]. }
  rewrite Eq in *.
  constructor; rewrite ?Hsite, ?Hpst, ?Hrs, ?Hq, ?Hset', ?Htoasts', ?Hreq', ?Hbase';
    dec; auto.
  - frame_link L0 Hpst Hrs. rewrite Hq, Eq. intros o Hn [?|H]; auto; discriminate.
  - frame_link L1 Hpst Hrs. rewrite Hq, Eq. intros o Hn [?|H]; auto; discriminate.
  - frame_link L2 Hpst Hrs. rewrite Hq, Eq. intros o Hn [?|H]; auto; discriminate.
  - rewrite EP in Hres. auto.
  - rewrite EP in Hwait. destruct Hwait as (l0 & ls & -> & Hls).
    exists l0, (ls ++ [l]). split.
    + rewrite map_app. reflexivity.
    + intros x Hx. apply (is_load_mono st st'); auto.
      change (In x ((l0 :: ls) ++ [l])) in Hx. apply in_app_iff in Hx.
      destruct Hx as [Hx|[<-|[]]]; auto.
  - rewrite EP in Hset. destruct Hset; [auto|discriminate].
  - discriminate.
  - intros x Hx. eapply job_ok_mono; eauto. apply Hjobs. right. exact Hx.
  - intros x Hx. apply (is_load_mono st st') in Hx; auto.
    destruct (chain_distinct_load _ _ Hinv _ Hx) as (? & ? & ? & ? & ?).
    eapply load_ok_frame; eauto; rewrite ?Hpst, ?Hrs; dec; auto.
    unfold woken. rewrite Hq, Hrs, Eq. dec.
    intros Hn [[E|Hw]|[Hw|[Hw|[[y [E|Hw]]|[y [E|Hw]]]]]]; try discriminate;
      eauto 8 using in_or_app.
    injection E as <-. right; right; left. apply in_or_app. right. left. reflexivity.
  - intros g k d Hg. apply (is_get_mono st st') in Hg; auto.
    destruct (chain_distinct_get _ _ Hinv _ _ _ Hg) as (? & ? & ? & ? & ?).
    eapply get_ok_frame; eauto; rewrite ?Hpst, ?Hrs; dec; auto.
    unfold get_waits. rewrite Hq, Eq.
    intros Hn [(x & Hx & Hin)|[y [E|Hin]]]; try discriminate; eauto.
    left. exists x. split; [apply (is_load_mono st st'); auto|].
    destruct (chain_distinct_load _ _ Hinv _ Hx) as (? & ? & ? & ? & ?).
    rewrite Hrs. dec. auto.
Qed.

(** [l] starts to follow the settled promise of [new Promise]. *)
Lemma inv_thenable_settled l rest o :
  queue st = JThenable l p :: rest -> pst st p = Some o ->
  heap st' = heap st -> queue st' = rest ++ [JReact (RAdopt l) o] ->
  settings st' = settings st -> toasts st' = toasts st ->
  chain_inv st' p.
Proof.
  intros Eq EP Hh Hq Hset' Htoasts'. open_inv Hinv.
  assert (Hj : job_ok st p (JThenable l p)) by (apply Hjobs; rewrite Eq; left; auto).
  destruct Hj as [_ Hl].
  assert (Hsite : forall q, site_at st' q = site_at st q) by (rewrite Hh; auto).
  assert (Hpst : forall q, pst st' q = pst st q) by (rewrite Hh; auto).
  assert (Hrs : forall q, rs st' q = rs st q) by (rewrite Hh; auto).
  pose proof (same_fwd _ _ Hsite) as Hfwd.
  assert (Hkeep : forall q o, pst st q = Some o -> pst st' q = Some o)
    by (intros; rewrite Hpst; auto).
  assert (Hloaded : forall v, loaded st p v -> loaded st' p v).
  { intros v [H1 H2]. split; [congruence|auto]. }
  rewrite Eq in *.
  constructor; rewrite ?Hsite, ?Hpst, ?Hrs, ?Hq, ?Hset', ?Htoasts', ?Hreq', ?Hbase'; auto.
  - frame_link L0 Hpst Hrs. rewrite Hq, Eq. intros ? Hn [?|H]; [discriminate|in_queue].
  - frame_link L1 Hpst Hrs. rewrite Hq, Eq. intros ? Hn [?|H]; [discriminate|in_queue].
  - frame_link L2 Hpst Hrs. rewrite Hq, Eq. intros ? Hn [?|H]; [discriminate|in_queue].
  - rewrite count_catch_app. simpl in *. lia.
  - rewrite EP in *. auto.
  - intros v Hv Hn. eapply fifo_pop; [|apply Hfifo; auto]. discriminate.
  - intros x [Hx|[<-|[]]]%in_app_iff.
    + eapply job_ok_mono; eauto. apply Hjobs. right. exact Hx.
    + simpl. split; [apply (is_load_mono st st'); auto|]. rewrite Hpst. auto.
  - intros x Hx. apply (is_load_mono st st') in Hx; auto.
    eapply load_ok_frame; eauto. unfold woken. rewrite Hq, Hrs, Eq.
    intros Hn [[E|Hw]|[Hw|[Hw|[[y [E|Hw]]|[y [E|Hw]]]]]]; try discriminate;
      eauto 8 using in_or_app.
    injection E as <-. right; right; right; right. exists o. in_queue.
  - intros g k d Hg. apply (is_get_mono st st') in Hg; auto.
    eapply get_ok_frame; eauto. unfold get_waits. rewrite Hq, Eq.
    intros Hn [(x & Hx & Hin)|[y [E|Hin]]]; try discriminate; eauto using in_or_app.
    left. exists x. rewrite Hrs. split; auto. apply (is_load_mono st st'); auto.
Qed.

(** The [.catch] job runs. *)
Lemma inv_catch o rest :
  queue st = JReact (RCatch (p + 2)) o :: rest ->
  updated st st' (p + 2) (Some (catch_outcome o)) [] ->
  queue st' = rest ++ [JReact (RThenMap (p + 3)) (catch_outcome o)] ->
  settings st' = settings st -> toasts st' = toasts st ++ catch_toasts o ->
  chain_inv st' p.
Proof.
  intros Eq (Hsite & Hpst & Hrs) Hq Hset' Htoasts'. open_inv Hinv.
  assert (Hj : job_ok st p (JReact (RCatch (p + 2)) o)) by (apply Hjobs; rewrite Eq; left; auto).
  destruct Hj as [_ E0].
  rewrite Eq in *. simpl in Hcount.
  destruct (pst st (p + 2)) eqn:E1; [lia|].
  pose proof (same_fwd _ _ Hsite) as Hfwd.
  assert (Hkeep : forall q o, pst st q = Some o -> pst st' q = Some o).
  { intros q o' H. rewrite Hpst. case_decide; subst; congruence. }
  assert (Hloaded : forall v, loaded st p v -> loaded st' p v).
  { intros v [H1 H2]. split; [congruence|auto]. }
  unfold link in L0, L1. rewrite E0, ?E1 in L0. rewrite E1 in L1.
  destruct L0 as [R0 _]. destruct L1 as [R1 E2].
  constructor; rewrite ?Hsite, ?Hpst, ?Hrs, ?Hq, ?Hset', ?Htoasts', ?Hreq', ?Hbase';
    dec; auto.
  - unfold link. rewrite !Hpst, Hrs. dec. rewrite E0. auto.
  - unfold link. rewrite !Hpst, Hrs, Hq. dec. rewrite E2. split; auto. in_queue.
  - frame_link L2 Hpst Hrs. rewrite Hq, Eq. intros ? Hn [?|H]; [discriminate|in_queue].
  - rewrite E0, Htoasts. reflexivity.
  - rewrite count_catch_app. simpl. lia.
  - destruct (pst st p); auto. destruct Hwait as (l & ls & ? & Hl). exists l, ls.
    split; auto. intros x Hx. apply (is_load_mono st st'); auto.
  - intros v Hv Hn. eapply fifo_pop; [|apply Hfifo; auto]. discriminate.
  - intros x [Hx|[<-|[]]]%in_app_iff.
    + eapply job_ok_mono; eauto. apply Hjobs. right. exact Hx.
    + simpl. rewrite Hpst. dec. auto.
  - intros x Hx. apply (is_load_mono st st') in Hx; auto.
    destruct (chain_distinct_load _ _ Hinv _ Hx) as (? & ? & ? & ? & ?).
    eapply load_ok_frame; eauto; rewrite ?Hpst, ?Hrs; dec; auto.
    unfold woken. rewrite Hq, Hrs, Eq. dec.
    intros Hn [[E|Hw]|[Hw|[Hw|[[y [E|Hw]]|[y [E|Hw]]]]]]; try discriminate;
      eauto 8 using in_or_app.
  - intros g k d Hg. apply (is_get_mono st st') in Hg; auto.
    destruct (chain_distinct_get _ _ Hinv _ _ _ Hg) as (? & ? & ? & ? & ?).
    eapply get_ok_frame; eauto; rewrite ?Hpst, ?Hrs; dec; auto.
    unfold get_waits. rewrite Hq, Eq.
    intros Hn [(x & Hx & Hin)|[y [E|Hin]]]; try discriminate; eauto using in_or_app.
    left. exists x. split; [apply (is_load_mono st st'); auto|].
    destruct (chain_distinct_load _ _ Hinv _ Hx) as (? & ? & ? & ? & ?).
    rewrite Hrs. dec. auto.
Qed.

(** The [.then(mapSettingsResponse)] job runs. *)
Lemma inv_map o rest :
  queue st = JReact (RThenMap (p + 3)) o :: rest ->
  pst st (p + 3) = None ->
  updated st st' (p + 3) (Some (map_outcome o)) [] ->
  queue st' = rest ++ [JReact (RThenResolve p (p + 4)) (map_outcome o)] ->
  settings st' = settings st -> toasts st' = toasts st ->
  chain_inv st' p.
Proof.
  intros Eq E2 (Hsite & Hpst & Hrs) Hq Hset' Htoasts'. open_inv Hinv.
  assert (Hj : job_ok st p (JReact (RThenMap (p + 3)) o)) by (apply Hjobs; rewrite Eq; left; auto).
  destruct Hj as [_ E1].
  rewrite Eq in *. simpl in Hcount.
  pose proof (same_fwd _ _ Hsite) as Hfwd.
  assert (Hkeep : forall q o, pst st q = Some o -> pst st' q = Some o).
  { intros q o' H. rewrite Hpst. case_decide; subst; congruence. }
  assert (Hloaded : forall v, loaded st p v -> loaded st' p v).
  { intros v [H1 H2]. split; [congruence|auto]. }
  unfold link in L1, L2. rewrite E1, ?E2 in L1. rewrite E2 in L2.
  destruct L1 as [R1 _]. destruct L2 as [R2 E3]. rewrite E3 in Hres.
  constructor; rewrite ?Hsite, ?Hpst, ?Hrs, ?Hq, ?Hset', ?Htoasts', ?Hreq', ?Hbase';
    dec; auto.
  - frame_link L0 Hpst Hrs. rewrite Hq, Eq. intros ? Hn [?|H]; [discriminate|in_queue].
  - unfold link. rewrite !Hpst, Hrs. dec. rewrite E1. auto.
  - unfold link. rewrite !Hpst, Hrs, Hq. dec. rewrite E3. split; auto. in_queue.
  - rewrite E3. auto.
  - rewrite count_catch_app. simpl. lia.
  - destruct (pst st p); auto. destruct Hwait as (l & ls & ? & Hl). exists l, ls.
    split; auto. intros x Hx. apply (is_load_mono st st'); auto.
  - intros v Hv Hn. eapply fifo_pop; [|apply Hfifo; auto]. discriminate.
  - intros x [Hx|[<-|[]]]%in_app_iff.
    + eapply job_ok_mono; eauto. apply Hjobs. right. exact Hx.
    + simpl. rewrite Hpst. dec. auto.
  - intros x Hx. apply (is_load_mono st st') in Hx; auto.
    destruct (chain_distinct_load _ _ Hinv _ Hx) as (? & ? & ? & ? & ?).
    eapply load_ok_frame; eauto; rewrite ?Hpst, ?Hrs; dec; auto.
    unfold woken. rewrite Hq, Hrs, Eq. dec.
    intros Hn [[E|Hw]|[Hw|[Hw|[[y [E|Hw]]|[y [E|Hw]]]]]]; try discriminate;
      eauto 8 using in_or_app.
  - intros g k d Hg. apply (is_get_mono st st') in Hg; auto.
    destruct (chain_distinct_get _ _ Hinv _ _ _ Hg) as (? & ? & ? & ? & ?).
    eapply get_ok_frame; eauto; rewrite ?Hpst, ?Hrs; dec; auto.
    unfold get_waits. rewrite Hq, Eq.
    intros Hn [(x & Hx & Hin)|[y [E|Hin]]]; try discriminate; eauto using in_or_app.
    left. exists x. split; [apply (is_load_mono st st'); auto|].
    destruct (chain_distinct_load _ _ Hinv _ Hx) as (? & ? & ? & ? & ?).
    rewrite Hrs. dec. auto.
Qed.

(** The [.then(resolve)] job runs on a rejection: [resolve] is not called. *)
Lemma inv_resolve_rejected e rest :
  queue st = JReact (RThenResolve p (p + 4)) (Rejected e) :: rest ->
  pst st (p + 4) = None ->
  updated st st' (p + 4) (Some (Rejected e)) [] ->
  queue st' = rest ->
  settings st' = settings st -> toasts st' = toasts st ->
  chain_inv st' p.
Proof.
  intros Eq E3 (Hsite & Hpst & Hrs) Hq Hset' Htoasts'. open_inv Hinv.
  assert (Hj : job_ok st p (JReact (RThenResolve p (p + 4)) (Rejected e)))
    by (apply Hjobs; rewrite Eq; left; auto).
  destruct Hj as (_ & _ & E2).
  rewrite Eq in *. simpl in Hcount.
  pose proof (same_fwd _ _ Hsite) as Hfwd.
  assert (Hkeep : forall q o, pst st q = Some o -> pst st' q = Some o).
  { intros q o' H. rewrite Hpst. case_decide; subst; congruence. }
  assert (Hloaded : forall v, loaded st p v -> loaded st' p v).
  { intros v [H1 H2]. split; [congruence|auto]. }
  unfold link in L2. rewrite E2, E3 in L2. destruct L2 as [R2 _].
  rewrite E3 in Hres.
  constructor; rewrite ?Hsite, ?Hpst, ?Hrs, ?Hq, ?Hset', ?Htoasts', ?Hreq', ?Hbase';
    dec; auto.
  - frame_link L0 Hpst Hrs. rewrite Hq, Eq. intros ? Hn [?|H]; [discriminate|in_queue].
  - frame_link L1 Hpst Hrs. rewrite Hq, Eq. intros ? Hn [?|H]; [discriminate|in_queue].
  - unfold link. rewrite !Hpst, Hrs. dec. rewrite E2. auto.
  - rewrite E2. auto.
  - rewrite Hres in *. destruct Hwait as (l & ls & ? & Hl). exists l, ls.
    split; auto. intros x Hx. apply (is_load_mono st st'); auto.
  - intros v Hv Hn. replace rest with (rest ++ []) by apply app_nil_r.
    eapply fifo_pop; [|apply Hfifo; auto]. discriminate.
  - intros x Hx. eapply job_ok_mono; eauto. apply Hjobs. right. exact Hx.
  - intros x Hx. apply (is_load_mono st st') in Hx; auto.
    destruct (chain_distinct_load _ _ Hinv _ Hx) as (? & ? & ? & ? & ?).
    eapply load_ok_frame; eauto; rewrite ?Hpst, ?Hrs; dec; auto.
    unfold woken. rewrite Hq, Hrs, Eq. dec.
    intros Hn [[E|Hw]|[Hw|[Hw|[[y [E|Hw]]|[y [E|Hw]]]]]]; try discriminate;
      eauto 8 using in_or_app.
  - intros g k d Hg. apply (is_get_mono st st') in Hg; auto.
    destruct (chain_distinct_get _ _ Hinv _ _ _ Hg) as (? & ? & ? & ? & ?).
    eapply get_ok_frame; eauto; rewrite ?Hpst, ?Hrs; dec; auto.
    unfold get_waits. rewrite Hq, Eq.
    intros Hn [(x & Hx & Hin)|[y [E|Hin]]]; try discriminate; eauto using in_or_app.
    left. exists x. split; [apply (is_load_mono st st'); auto|].
    destruct (chain_distinct_load _ _ Hinv _ Hx) as (? & ? & ? & ? & ?).
    rewrite Hrs. dec. auto.
Qed.

(** The [.then(resolve)] job runs on a fulfilment: [resolve(v)] settles the
    promise of [new Promise] and schedules what waits on it. *)
Lemma inv_resolve_fulfilled v rest :
  queue st = JReact (RThenResolve p (p + 4)) (Fulfilled v) :: rest ->
  pst st (p + 4) = None ->
  (forall q, site_at st' q = site_at st q) ->
  (forall q, pst st' q = if decide (q = p + 4) then Some (Fulfilled VUndefined)
                         else if decide (q = p) then Some (Fulfilled v)
                              else pst st q) ->
  (forall q, rs st' q = if decide (q = p + 4) then []
                        else if decide (q = p) then [] else rs st q) ->
  queue st' = rest ++ map (fun r => JReact r (Fulfilled v)) (rs st p) ->
  settings st' = settings st -> toasts st' = toasts st ->
  chain_inv st' p.
Proof.
  intros Eq E3 Hsite Hpst Hrs Hq Hset' Htoasts'. open_inv Hinv.
  assert (Hj : job_ok st p (JReact (RThenResolve p (p + 4)) (Fulfilled v)))
    by (apply Hjobs; rewrite Eq; left; auto).
  destruct Hj as (_ & _ & E2).
  rewrite Eq in *. simpl in Hcount.
  rewrite E3 in Hres. rewrite Hres in Hwait, Hset.
  destruct Hwait as (l0 & ls & RP & Hls).
  destruct Hset as [Hset|]; [|discriminate].
  pose proof (same_fwd _ _ Hsite) as Hfwd.
  assert (Hkeep : forall q o, pst st q = Some o -> pst st' q = Some o).
  { intros q o' H. rewrite Hpst. repeat case_decide; subst; congruence. }
  assert (Hloaded : forall w, loaded st p w -> loaded st' p w).
  { intros w [H1 H2]. congruence. }
  unfold link in L2. rewrite E2, E3 in L2. destruct L2 as [R2 _].
  constructor; rewrite ?Hsite, ?Hpst, ?Hrs, ?Hq, ?Hset', ?Htoasts', ?Hreq', ?Hbase';
    dec; auto.
  - frame_link L0 Hpst Hrs. rewrite Hq, Eq. intros ? Hn [?|H]; [discriminate|in_queue].
  - frame_link L1 Hpst Hrs. rewrite Hq, Eq. intros ? Hn [?|H]; [discriminate|in_queue].
  - unfold link. rewrite !Hpst, Hrs. dec. rewrite E2. auto.
  - rewrite E2. auto.
  - rewrite count_catch_app, count_catch_reactions; [lia|].
    rewrite RP. intros d [Hd|Hd]; [discriminate|].
    apply in_map_iff in Hd. destruct Hd as (? & ? & ?). discriminate.
  - intros w Hw _. injection Hw as <-. exists rest, l0, (map (fun r => JReact r (Fulfilled v)) (map RAdopt ls)).
    split; [rewrite RP; reflexivity|].
    intros j Hj Ha. specialize (Hjobs j (or_intror Hj)).
    destruct j as [[] ?|]; simpl in Ha; try contradiction.
    simpl in Hjobs. destruct Hjobs. congruence.
  - intros x [Hx|Hx]%in_app_iff.
    + eapply job_ok_mono; eauto. apply Hjobs. right. exact Hx.
    + apply in_map_iff in Hx. destruct Hx as (r & <- & Hr). rewrite RP in Hr.
      destruct Hr as [<-|Hr].
      * simpl. rewrite Hpst. dec. split; auto.
        apply (is_load_mono st st'); auto. apply Hls. left. reflexivity.
      * apply in_map_iff in Hr. destruct Hr as (y & <- & Hy).
        simpl. rewrite Hpst. dec. split; auto.
        apply (is_load_mono st st'); auto. apply Hls. right. exact Hy.
  - intros x Hx. apply (is_load_mono st st') in Hx; auto.
    destruct (chain_distinct_load _ _ Hinv _ Hx) as (? & ? & ? & ? & ?).
    eapply load_ok_frame; eauto; rewrite ?Hpst, ?Hrs; dec; auto.
    unfold woken. rewrite Hq, Hrs, Eq. dec.
    intros Hn [[E|Hw]|[Hw|[Hw|[[y [E|Hw]]|[y [E|Hw]]]]]]; try discriminate;
      eauto 8 using in_or_app.
    * right; right; right; left. exists (Fulfilled v). apply in_or_app. right.
      apply in_map_iff. eauto.
    * right; right; right; right. exists (Fulfilled v). apply in_or_app. right.
      apply in_map_iff. eauto.
  - intros g k d Hg. apply (is_get_mono st st') in Hg; auto.
    destruct (chain_distinct_get _ _ Hinv _ _ _ Hg) as (? & ? & ? & ? & ?).
    eapply get_ok_frame; eauto; rewrite ?Hpst, ?Hrs; dec; auto.
    unfold get_waits. rewrite Hq, Eq.
    intros Hn [(x & Hx & Hin)|[y [E|Hin]]]; try discriminate; eauto using in_or_app.
    left. exists x. split; [apply (is_load_mono st st'); auto|].
    destruct (chain_distinct_load _ _ Hinv _ Hx) as (? & ? & ? & ? & ?).
    rewrite Hrs. dec. auto.
Qed.

(** A [load] call is settled, by the continuation of its [await] or by
    following the promise it returned; the slot holds the value by then. *)
Lemma inv_settle_load r l v rest :
  r = RAwaitLoad l \/ r = RAdopt l ->
  queue st = JReact r (Fulfilled v) :: rest ->
  pst st l = None ->
  updated st st' l (Some (Fulfilled v)) [] ->
  queue st' = rest ++ map (fun r => JReact r (Fulfilled v)) (rs st l) ->
  settings st' = v -> toasts st' = toasts st ->
  chain_inv st' p.
Proof.
  intros Hr Eq El (Hsite & Hpst & Hrs) Hq Hset' Htoasts'. open_inv Hinv.
  assert (Hj : job_ok st p (JReact r (Fulfilled v))) by (apply Hjobs; rewrite Eq; left; auto).
  assert (Hl : is_load st l /\ pst st p = Some (Fulfilled v)).
  { destruct Hr; subst r; exact Hj. }
  clear Hj. destruct Hl as [Hl EP].
  destruct (chain_distinct_load _ _ Hinv _ Hl) as (? & ? & ? & ? & ?).
  assert (Hnn : is_null v = false).
  { destruct (chain_resolved _ _ Hinv _ EP) as (? & u & _ & _ & E). injection E as ->. auto. }
  rewrite Eq in *.
  pose proof (same_fwd _ _ Hsite) as Hfwd.
  assert (Hkeep : forall q o, pst st q = Some o -> pst st' q = Some o).
  { intros q o' H'. rewrite Hpst. case_decide; subst; congruence. }
  assert (Hnew : loaded st' p v).
  { split; auto. }
  assert (Hloaded : forall w, loaded st p w -> loaded st' p w).
  { intros w [Ha Hb]. replace w with v by congruence. auto. }
  pose proof (Hloads l Hl) as Hlo. unfold load_ok in Hlo. rewrite El in Hlo.
  destruct Hlo as [Hreacts _].
  assert (Hnc : count_catch (JReact r (Fulfilled v) :: rest) = count_catch rest).
  { destruct Hr; subst r; reflexivity. }
  rewrite Hnc in Hcount.
  assert (Hne : forall r' o', (forall x, r' <> RAwaitLoad x) -> (forall x, r' <> RAdopt x) ->
                              In (JReact r' o') (JReact r (Fulfilled v) :: rest) ->
                              In (JReact r' o') (rest ++ map (fun r => JReact r (Fulfilled v)) (rs st l))).
  { intros r' o' Ha Hb [E|Hin]; [|in_queue]. exfalso. injection E as -> _.
    destruct Hr as [Hr|Hr]; [eapply Ha|eapply Hb]; eauto. }
  constructor; rewrite ?Hsite, ?Hpst, ?Hrs, ?Hq, ?Htoasts', ?Hreq', ?Hbase';
    dec; auto.
  - frame_link L0 Hpst Hrs. rewrite Hq, Eq. intros; apply Hne; auto; discriminate.
  - frame_link L1 Hpst Hrs. rewrite Hq, Eq. intros; apply Hne; auto; discriminate.
  - frame_link L2 Hpst Hrs. rewrite Hq, Eq. intros; apply Hne; auto; discriminate.
  - rewrite count_catch_app, count_catch_reactions; [lia|].
    intros d Hd. destruct (Hreacts _ Hd) as (? & ? & ? & ? & _). discriminate.
  - rewrite EP in *. auto.
  - right. destruct Hnew; congruence.
  - intros w _ Hw. rewrite Hset' in Hw. rewrite Hw in Hnn. discriminate Hnn.
  - intros x [Hx|Hx]%in_app_iff.
    + eapply job_ok_mono; eauto. apply Hjobs. right. exact Hx.
    + apply in_map_iff in Hx. destruct Hx as (r' & <- & Hr').
      destruct (Hreacts _ Hr') as (g & k & d & -> & Hg). simpl. split; eauto.
      apply (is_get_mono st st'); auto.
  - intros x Hx. apply (is_load_mono st st') in Hx; auto.
    destruct (decide (x = l)) as [->|Hxl].
    + unfold load_ok. rewrite Hpst, Hrs. dec. eauto.
    + eapply load_ok_frame; eauto; rewrite ?Hpst, ?Hrs; dec; auto.
      unfold woken. rewrite Hq, Hrs, Eq. dec.
      intros Hn [[E|Hw]|[Hw|[Hw|[[y [E|Hw]]|[y [E|Hw]]]]]]; try discriminate;
        eauto 8 using in_or_app.
      * exfalso. injection E as E _. destruct Hr; congruence.
      * exfalso. injection E as E _. destruct Hr; congruence.
  - intros g k d Hg. apply (is_get_mono st st') in Hg; auto.
    pose proof (load_get_distinct st _ _ _ _ Hl Hg).
    eapply get_ok_frame; eauto; rewrite ?Hpst, ?Hrs; dec; auto.
    unfold get_waits. rewrite Hq, Eq.
    intros Hn [(x & Hx & Hin)|[y [E|Hin]]]; eauto using in_or_app.
    * destruct (decide (x = l)) as [->|Hxl].
      -- right. exists (Fulfilled v). apply in_or_app. right. apply in_map_iff. eauto.
      -- left. exists x. split; [apply (is_load_mono st st'); auto|].
         rewrite Hrs. dec. auto.
    * exfalso. injection E as E _. destruct Hr; congruence.
Qed.

(** A [get] call is settled by the continuation of its [await]. *)
Lemma inv_settle_get g k d v rest :
  queue st = JReact (RAwaitGet g k d) (Fulfilled v) :: rest ->
  pst st g = None ->
  updated st st' g (Some (settled_of (get_resume v k d))) [] ->
  queue st' = rest ->
  settings st' = settings st -> toasts st' = toasts st ->
  chain_inv st' p.
Proof.
  intros Eq Eg (Hsite & Hpst & Hrs) Hq Hset' Htoasts'. open_inv Hinv.
  assert (Hj : job_ok st p (JReact (RAwaitGet g k d) (Fulfilled v)))
    by (apply Hjobs; rewrite Eq; left; auto).
  destruct Hj as (Hg & w & E & Hw). injection E as <-.
  destruct (chain_distinct_get _ _ Hinv _ _ _ Hg) as (? & ? & ? & ? & ?).
  rewrite Eq in *. simpl in Hcount.
  pose proof (same_fwd _ _ Hsite) as Hfwd.
  assert (Hkeep : forall q o, pst st q = Some o -> pst st' q = Some o).
  { intros q o' H'. rewrite Hpst. case_decide; subst; congruence. }
  assert (Hloaded : forall w, loaded st p w -> loaded st' p w).
  { intros w' [Ha Hb]. split; [congruence|auto]. }
  constructor; rewrite ?Hsite, ?Hpst, ?Hrs, ?Hq, ?Hset', ?Htoasts', ?Hreq', ?Hbase';
    dec; auto.
  - frame_link L0 Hpst Hrs. rewrite Hq, Eq. intros ? Hn [?|H']; [discriminate|in_queue].
  - frame_link L1 Hpst Hrs. rewrite Hq, Eq. intros ? Hn [?|H']; [discriminate|in_queue].
  - frame_link L2 Hpst Hrs. rewrite Hq, Eq. intros ? Hn [?|H']; [discriminate|in_queue].
  - destruct (pst st p); auto. destruct Hwait as (l & ls & ? & Hl). exists l, ls.
    split; auto. intros x Hx. apply (is_load_mono st st'); auto.
  - intros w Hv Hn. replace rest with (rest ++ []) by apply app_nil_r.
    eapply fifo_pop; [|apply Hfifo; auto]. discriminate.
  - intros x Hx. eapply job_ok_mono; eauto. apply Hjobs. right. exact Hx.
  - intros x Hx. apply (is_load_mono st st') in Hx; auto.
    pose proof (load_get_distinct st _ _ _ _ Hx Hg).
    eapply load_ok_frame; eauto; rewrite ?Hpst, ?Hrs; dec; auto.
    unfold woken. rewrite Hq, Hrs, Eq. dec.
    intros Hn [[E|Hw']|[Hw'|[Hw'|[[y [E|Hw']]|[y [E|Hw']]]]]]; try discriminate;
      eauto 8 using in_or_app.
  - intros g' k' d' Hg'. apply (is_get_mono st st') in Hg'; auto.
    destruct (decide (g' = g)) as [->|Hne].
    + assert (SGetCall k' d' = SGetCall k d) as E by (unfold is_get in *; congruence).
      injection E as -> ->.
      unfold get_ok. rewrite Hpst, Hrs. dec. split; eauto.
    + eapply get_ok_frame; eauto; rewrite ?Hpst, ?Hrs; dec; auto.
      unfold get_waits. rewrite Hq, Eq.
      intros Hn [(x & Hx & Hin)|[y [E|Hin]]]; eauto using in_or_app.
      * left. exists x. split; [apply (is_load_mono st st'); auto|].
        pose proof (load_get_distinct st _ _ _ _ Hx Hg).
        rewrite Hrs. dec. auto.
      * congruence.
Qed.
End transitions.

(** *** Calls: new promises at the end of the store, new jobs at the end
    of the queue *)

Lemma hsite_app_new h cs i : hsite (h ++ cs) (length h + i) = hsite cs i.
Proof. rewrite hsite_app, decide_False by lia. f_equal. lia. Qed.

Lemma hpst_app_new h cs i : hpst (h ++ cs) (length h + i) = hpst cs i.
Proof. rewrite hpst_app, decide_False by lia. f_equal. lia. Qed.

Lemma hrs_app_new h cs i : hrs (h ++ cs) (length h + i) = hrs cs i.
Proof. rewrite hrs_app, decide_False by lia. f_equal. lia. Qed.

Lemma hsite_app_old h cs q s : hsite h q = Some s -> hsite (h ++ cs) q = Some s.
Proof. intros H. rewrite hsite_app, decide_True; auto. eapply hsite_lt; eauto. Qed.

Section extend.
Variables (st st' : state) (p : pid) (cs : list cell) (js : list job).
Hypothesis Hinv : chain_inv st p.
Hypothesis Hreq' : requests st' = requests st.
Hypothesis Hbase' : baseUrl st' = baseUrl st.
Hypothesis Hh : heap st' = heap st ++ cs.
Hypothesis Hq : queue st' = queue st ++ js.
Hypothesis Hset' : settings st' = settings st.
Hypothesis Htoasts' : toasts st' = toasts st.

Lemma extend_site q s : site_at st q = Some s -> site_at st' q = Some s.
Proof. rewrite Hh. apply hsite_app_old. Qed.

Lemma extend_pst q s : site_at st q = Some s -> pst st' q = pst st q.
Proof. intros H. rewrite Hh, hpst_app, decide_True; auto. eapply hsite_lt; eauto. Qed.

Lemma extend_rs q s : site_at st q = Some s -> rs st' q = rs st q.
Proof. intros H. rewrite Hh, hrs_app, decide_True; auto. eapply hsite_lt; eauto. Qed.

Lemma extend_keep q o : pst st q = Some o -> pst st' q = Some o.
Proof. intros H. rewrite Hh, hpst_app, decide_True; auto. eapply hpst_lt; eauto. Qed.

Lemma extend_loaded v : loaded st p v -> loaded st' p v.
Proof. intros [H1 H2]. split; [congruence|]. apply extend_keep; auto. Qed.

Lemma extend_old_or_new q s :
  site_at st' q = Some s ->
  site_at st q = Some s
  \/ exists i c, q = length (heap st) + i /\ cs !! i = Some c /\ created_by c = s.
Proof.
  rewrite Hh, hsite_app. case_decide as Hlt; auto.
  intros H. right. exists (q - length (heap st)). unfold hsite in H.
  destruct (cs !! (q - length (heap st))) as [c|] eqn:E; [|discriminate].
  exists c. repeat split; auto; [lia|congruence].
Qed.

Hypothesis Hjs : forall j, In j js -> job_ok st' p j.
Hypothesis Hjc : count_catch js = 0.
Hypothesis Hcs :
  forall i c, cs !! i = Some c ->
    match created_by c with
    | SLoadCall => load_ok st' p (length (heap st) + i)
    | SGetCall k d => get_ok st' p (length (heap st) + i) k d
    | _ => False
    end.

Lemma inv_extend : chain_inv st' p.
Proof.
  open_inv Hinv.
  pose proof extend_site as Hfwd. pose proof extend_keep as Hkeep.
  pose proof extend_loaded as Hloaded.
  constructor;
    rewrite ?(extend_pst _ _ HsP), ?(extend_pst _ _ Hs0), ?(extend_pst _ _ Hs1),
      ?(extend_pst _ _ Hs2), ?(extend_pst _ _ Hs3), ?(extend_rs _ _ HsP),
      ?(extend_rs _ _ Hs3), ?Hq, ?Hset', ?Htoasts', ?Hreq', ?Hbase'; auto.
  - eapply link_frame; [..|exact L0]; eauto using extend_pst, extend_rs.
    rewrite Hq. intros; in_queue.
  - eapply link_frame; [..|exact L1]; eauto using extend_pst, extend_rs.
    rewrite Hq. intros; in_queue.
  - eapply link_frame; [..|exact L2]; eauto using extend_pst, extend_rs.
    rewrite Hq. intros; in_queue.
  - rewrite count_catch_app. lia.
  - destruct (pst st p); auto. destruct Hwait as (l & ls & ? & Hl). exists l, ls.
    split; auto. intros x Hx. apply (is_load_fwd st st'); auto.
  - intros v Hv Hn. apply fifo_app. auto.
  - intros j [Hj|Hj]%in_app_iff; auto. eapply job_ok_mono; eauto.
  - intros l Hl. destruct (extend_old_or_new _ _ Hl) as [Ho|(i & c & -> & Hc & Hs)].
    + eapply load_ok_frame; eauto using extend_pst, extend_rs.
      unfold woken. rewrite Hq, (extend_rs _ _ HsP).
      intros Hn [Hw|[Hw|[Hw|[[y Hw]|[y Hw]]]]]; eauto 8 using in_or_app.
    + specialize (Hcs i c Hc). rewrite Hs in Hcs. exact Hcs.
  - intros g k d Hg. destruct (extend_old_or_new _ _ Hg) as [Ho|(i & c & -> & Hc & Hs)].
    + eapply get_ok_frame; eauto using extend_pst, extend_rs.
      unfold get_waits. rewrite Hq.
      intros Hn [(x & Hx & Hin)|[y Hin]]; eauto using in_or_app.
      left. exists x. split; [apply (is_load_fwd st st'); auto|].
      rewrite (extend_rs _ _ Hx). auto.
    + specialize (Hcs i c Hc). rewrite Hs in Hcs. exact Hcs.
Qed.
End extend.

Lemma settle_fresh st s o :
  settle (length (heap st)) o (set_heap (heap st ++ [mkCell s None []]) st)
  = set_heap (heap st ++ [mkCell s (Some o) []]) st.
Proof.
  unfold settle. simpl. rewrite list_lookup_middle by reflexivity. simpl.
  rewrite insert_app_r_alt, Nat.sub_diag by lia. simpl.
  destruct st; unfold set_queue, set_heap; simpl. rewrite app_nil_r. reflexivity.
Qed.

Lemma load_cached st :
  is_null (settings st) = false ->
  load st = (length (heap st),
             set_heap (heap st ++ [mkCell SLoadCall (Some (Fulfilled (settings st))) []]) st).
Proof.
  intros Hn. unfold load, alloc. simpl. rewrite Hn. simpl.
  unfold complete. simpl. rewrite settle_fresh. reflexivity.
Qed.

Lemma load_inflight st p :
  is_null (settings st) = true -> promise st = Some p ->
  load st = (length (heap st),
             set_queue (queue st ++ [JThenable (length (heap st)) p])
                       (set_heap (heap st ++ [mkCell SLoadCall None []]) st)).
Proof.
  intros Hn Hp. unfold load, alloc. simpl. rewrite Hn, Hp. reflexivity.
Qed.

Lemma get_cached k d st :
  is_null (settings st) = false ->
  get k d st
  = (length (heap st),
     set_queue (queue st ++ [JReact (RAwaitGet (length (heap st)) k d)
                                    (Fulfilled (settings st))])
               (set_heap (heap st ++ [mkCell (SGetCall k d) None [];
                                      mkCell SLoadCall (Some (Fulfilled (settings st))) []])
                         st)).
Proof.
  intros Hn. unfold get, alloc. simpl.
  rewrite load_cached by exact Hn. simpl.
  unfold attach. simpl. rewrite list_lookup_middle by reflexivity. simpl.
  unfold enqueue. simpl. rewrite <- app_assoc. reflexivity.
Qed.

Lemma get_inflight k d st p :
  is_null (settings st) = true -> promise st = Some p ->
  get k d st
  = (length (heap st),
     set_queue (queue st ++ [JThenable (S (length (heap st))) p])
               (set_heap (heap st ++ [mkCell (SGetCall k d) None [];
                                      mkCell SLoadCall None
                                             [RAwaitGet (length (heap st)) k d]])
                         st)).
Proof.
  intros Hn Hp. unfold get, alloc. simpl.
  erewrite load_inflight by eauto. simpl.
  unfold attach. simpl. rewrite list_lookup_middle by reflexivity. simpl.
  rewrite insert_app_r_alt, Nat.sub_diag by lia. simpl.
  rewrite length_app, <- app_assoc. simpl. rewrite Nat.add_1_r. reflexivity.
Qed.

Section calls.
Variables (st : state) (p : pid).
Hypothesis Hinv : chain_inv st p.
Hypothesis Hp : promise st = Some p.

Lemma settings_loaded : is_null (settings st) = false -> loaded st p (settings st).
Proof.
  intros Hn. destruct (c_settings _ _ Hinv) as [E|E]; [rewrite E in Hn; discriminate|].
  split; auto.
Qed.

Lemma inv_load : chain_inv (snd (load st)) p.
Proof.
  destruct (is_null (settings st)) eqn:Hn.
  - rewrite (load_inflight _ _ Hn Hp). simpl.
    eapply inv_extend with (cs := [_]) (js := [_]); eauto; try reflexivity.
    + intros j [<-|[]]. simpl. split; auto. unfold is_load. simpl.
      rewrite <- (Nat.add_0_r (length (heap st))), hsite_app_new. reflexivity.
    + intros [|[|i]] c E; try discriminate. injection E as <-. simpl.
      unfold load_ok. simpl. rewrite hpst_app_new, hrs_app_new. simpl.
      split; [intros r []|]. left. rewrite Nat.add_0_r. apply in_or_app; right; left; reflexivity.
  - rewrite (load_cached _ Hn). simpl.
    eapply inv_extend with (cs := [_]) (js := []); eauto; try reflexivity.
    + simpl. rewrite app_nil_r. reflexivity.
    + intros j [].
    + intros [|[|i]] c E; try discriminate. injection E as <-. simpl.
      unfold load_ok. simpl. rewrite hpst_app_new, hrs_app_new. simpl.
      split; auto. exists (settings st). split; auto.
      eapply extend_loaded with (st := st); try reflexivity.
      apply settings_loaded; auto.
Qed.

Lemma inv_get k d : chain_inv (snd (get k d st)) p.
Proof.
  destruct (is_null (settings st)) eqn:Hn.
  - rewrite (get_inflight _ _ _ _ Hn Hp). simpl.
    eapply inv_extend with (cs := [_; _]) (js := [_]); eauto; try reflexivity.
    + intros j [<-|[]]. simpl. split; auto. unfold is_load. simpl.
      rewrite <- Nat.add_1_r, hsite_app_new. reflexivity.
    + intros [|[|[|i]]] c E; try discriminate; injection E as <-; simpl.
      * unfold get_ok. simpl. rewrite hpst_app_new, hrs_app_new. simpl.
        split; auto. left. exists (length (heap st) + 1). unfold is_load. simpl.
        rewrite hsite_app_new, hrs_app_new. simpl. rewrite Nat.add_0_r. auto.
      * unfold load_ok. simpl. rewrite hpst_app_new, hrs_app_new. simpl. split.
        -- intros r [<-|[]]. exists (length (heap st)), k, d. split; auto.
           unfold is_get. simpl.
           rewrite <- (Nat.add_0_r (length (heap st))), hsite_app_new. reflexivity.
        -- left. simpl. rewrite Nat.add_1_r. apply in_or_app; right; left; reflexivity.
  - rewrite (get_cached _ _ _ Hn). simpl.
    assert (Hld : loaded (set_queue (queue st ++ [JReact (RAwaitGet (length (heap st)) k d)
                                  (Fulfilled (settings st))])
             (set_heap (heap st ++ [mkCell (SGetCall k d) None [];
                                    mkCell SLoadCall (Some (Fulfilled (settings st))) []])
                       st)) p (settings st)).
    { eapply extend_loaded with (st := st); try reflexivity. apply settings_loaded; auto. }
    eapply inv_extend with (cs := [_; _]) (js := [_]); eauto; try reflexivity.
    + intros j [<-|[]]. simpl. split; eauto. unfold is_get. simpl.
      rewrite <- (Nat.add_0_r (length (heap st))), hsite_app_new. reflexivity.
    + intros [|[|[|i]]] c E; try discriminate; injection E as <-; simpl.
      * unfold get_ok. simpl. rewrite hpst_app_new, hrs_app_new. simpl.
        split; auto. right. exists (Fulfilled (settings st)). rewrite Nat.add_0_r. apply in_or_app; right; left; reflexivity.
      * unfold load_ok. simpl. rewrite hpst_app_new, hrs_app_new. simpl. eauto.
Qed.
End calls.

(** *** The first call *)

Lemma first_load b e :
  load (mkState VNull None b e [] [] [] [])
  = (0, mkState VNull (Some 1) b e
          (mkCell SLoadCall None [] :: first_chain 1 [RAwaitLoad 0]) []
          [mkRequest "GET" "/ui-settings" b 2] []).
Proof. reflexivity. Qed.

Lemma first_get k d b e :
  get k d (mkState VNull None b e [] [] [] [])
  = (0, mkState VNull (Some 2) b e
          (mkCell (SGetCall k d) None [] :: mkCell SLoadCall None [RAwaitGet 0 k d]
             :: first_chain 2 [RAwaitLoad 1]) []
          [mkRequest "GET" "/ui-settings" b 3] []).
Proof. reflexivity. Qed.

Section first_call.
Variable st : state.
Hypothesis Hinv : Inv st.
Hypothesis Hp : promise st = None.

Lemma first_state :
  st = mkState VNull None (baseUrl st) (env st) [] [] [] [].
Proof.
  unfold Inv in Hinv. rewrite Hp in Hinv. destruct st; simpl in *.
  destruct Hinv as (-> & -> & -> & -> & ->). subst. reflexivity.
Qed.

Lemma inv_first_load : Inv (snd (load st)).
Proof.
  rewrite first_state, first_load. unfold Inv. simpl.
  constructor; try reflexivity; unfold link; simpl; auto.
  - exists 0, []. split; auto. intros x [<-|[]]. reflexivity.
  - discriminate.
  - intros j [].
  - intros [|[|[|[|[|[|l]]]]]]; try discriminate. intros _.
    unfold load_ok. simpl. split; [intros r []|]. unfold woken. simpl. auto.
  - intros [|[|[|[|[|[|l]]]]]]; discriminate.
Qed.

Lemma inv_first_get k d : Inv (snd (get k d st)).
Proof.
  rewrite first_state, first_get. unfold Inv. simpl.
  constructor; try reflexivity; unfold link; simpl; auto.
  - exists 1, []. split; auto. intros x [<-|[]]. reflexivity.
  - discriminate.
  - intros j [].
  - intros [|[|[|[|[|[|[|l]]]]]]]; try discriminate. intros _.
    unfold load_ok. simpl. split.
    + intros r [<-|[]]. exists 0, k, d. split; reflexivity.
    + unfold woken. simpl. auto.
  - intros [|[|[|[|[|[|[|l]]]]]]] k' d'; try discriminate. intros E.
    injection E as <- <-. unfold get_ok. simpl. split; auto.
    left. exists 1. split; [reflexivity|]. simpl. auto.
Qed.
End first_call.

(** *** A tick *)

Lemma run_catch d o st :
  run_reaction (RCatch d) o st
  = settle d (catch_outcome o) (set_toasts (toasts st ++ catch_toasts o) st).
Proof.
  destruct o as [v|e]; simpl.
  - rewrite app_nil_r. destruct st; reflexivity.
  - destruct (on_fetch_error e). reflexivity.
Qed.

Lemma run_map d o st : run_reaction (RThenMap d) o st = settle d (map_outcome o) st.
Proof. destruct o; reflexivity. Qed.

Section tick.
Variables (st : state) (p : pid).
Hypothesis Hinv : chain_inv st p.

Lemma adopt_settings l o rest :
  queue st = JReact (RAdopt l) o :: rest ->
  exists v, o = Fulfilled v /\ loaded st p v.
Proof.
  intros Eq. open_inv Hinv.
  assert (Hj : job_ok st p (JReact (RAdopt l) o)) by (apply Hjobs; rewrite Eq; left; auto).
  destruct Hj as [_ EP].
  destruct (chain_resolved _ _ Hinv _ EP) as (_ & u & _ & _ & ->).
  eexists. split; [reflexivity|]. split; auto.
  destruct Hset as [Hn|Hs]; [|congruence]. exfalso.
  destruct (Hfifo _ EP Hn) as (pre & l' & post & E & Hpre). rewrite Eq in E.
  destruct pre as [|j pre]; simpl in E; [discriminate|].
  injection E as <- _. apply (Hpre _ (or_introl eq_refl)). exact I.
Qed.

Lemma inv_tick : chain_inv (step Tick st) p.
Proof.
  simpl. destruct (queue st) as [|j rest] eqn:Eq; [exact Hinv|].
  open_inv Hinv.
  assert (Hj : job_ok st p j) by (apply Hjobs; rewrite Eq; left; auto).
  destruct j as [r o|l q]; simpl.
  - destruct r as [d|d|q d|l|g k dv|l].
    + (* .catch *)
      destruct Hj as [-> E0]. rewrite run_catch.
      rewrite Eq in Hcount. simpl in Hcount.
      destruct (pst st (p + 2)) eqn:E1; [lia|].
      unfold link in L1. rewrite E1 in L1. destruct L1 as [R1 _].
      erewrite settle_pending by (simpl; eauto). simpl. rewrite R1. simpl.
      eapply inv_catch; eauto; try reflexivity.
      eapply updated_insert; eauto; reflexivity.
    + (* .then(mapSettingsResponse) *)
      destruct Hj as [-> E1]. rewrite run_map.
      destruct (pst st (p + 3)) eqn:E2.
      * erewrite settle_settled by (simpl; eauto).
        eapply inv_pop; eauto; try reflexivity. simpl. congruence.
      * unfold link in L2. rewrite E2 in L2. destruct L2 as [R2 _].
        erewrite settle_pending by (simpl; eauto). simpl. rewrite R2. simpl.
        eapply inv_map; eauto; try reflexivity.
        eapply updated_insert; eauto; reflexivity.
    + (* .then(resolve) *)
      destruct Hj as (-> & -> & E2).
      destruct (pst st (p + 4)) eqn:E3.
      * assert (set_queue rest st = run_reaction (RThenResolve p (p + 4)) o (set_queue rest st)) as <-.
        { rewrite E2 in Hres. destruct o as [v|e]; simpl; unfold complete.
          - erewrite (settle_settled _ p) by (simpl; eauto).
            erewrite settle_settled by (simpl; eauto). reflexivity.
          - erewrite settle_settled by (simpl; eauto). reflexivity. }
        eapply inv_pop; eauto; try reflexivity. simpl. congruence.
      * destruct o as [v|e]; simpl; unfold complete; simpl.
        -- erewrite (settle_pending _ p) by (simpl; eauto).
           erewrite settle_pending; simpl;
             [|rewrite hsite_update by eauto; eauto
              |rewrite hpst_insert by (eapply hsite_lt; eauto); dec; eauto].
           eapply inv_resolve_fulfilled; eauto; try reflexivity; simpl.
           ++ intros x. rewrite !hsite_update; eauto. rewrite hsite_update; eauto.
           ++ intros x. rewrite !hpst_insert; auto.
              ** eapply hsite_lt; eauto.
              ** rewrite length_insert. eapply hsite_lt; eauto.
           ++ intros x. rewrite !hrs_insert; auto.
              ** eapply hsite_lt; eauto.
              ** rewrite length_insert. eapply hsite_lt; eauto.
           ++ rewrite hrs_insert by (eapply hsite_lt; eauto). dec.
              rewrite Hlast. simpl. rewrite app_nil_r. reflexivity.
        -- erewrite settle_pending by (simpl; eauto). simpl. rewrite Hlast. simpl.
           eapply inv_resolve_rejected; eauto; try reflexivity.
           ++ eapply updated_insert; eauto; reflexivity.
           ++ simpl. apply app_nil_r.
    + (* the rest of load *)
      destruct Hj as [Hl EP].
      destruct (chain_resolved _ _ Hinv _ EP) as (_ & u & _ & _ & ->).
      simpl. unfold complete. simpl.
      destruct (pst st l) eqn:El.
      * erewrite settle_settled by (simpl; eauto).
        pose proof (Hloads l Hl) as Hlo. unfold load_ok in Hlo. rewrite El in Hlo.
        destruct Hlo as (_ & w & _ & [Hw1 Hw2]).
        eapply inv_pop; eauto; try reflexivity; simpl; congruence.
      * erewrite settle_pending by (simpl; eauto). simpl.
        eapply inv_settle_load with (r := RAwaitLoad l); eauto; try reflexivity.
        eapply updated_insert; eauto; reflexivity.
    + (* the rest of get *)
      destruct Hj as (Hg & v & -> & Hv). simpl. unfold complete. simpl.
      pose proof (Hgets g k dv Hg) as [Rg _].
      destruct (pst st g) eqn:Eg.
      * erewrite settle_settled by (simpl; eauto).
        eapply inv_pop; eauto; try reflexivity. simpl. congruence.
      * erewrite settle_pending by (simpl; eauto). simpl. rewrite Rg. simpl.
        destruct Hv as [Hv1 Hv2]. rewrite Hv1.
        eapply inv_settle_get; eauto; try reflexivity.
        -- eapply updated_insert; eauto; reflexivity.
        -- simpl. apply app_nil_r.
    + (* l follows the promise of new Promise *)
      destruct (adopt_settings _ _ _ Eq) as (v & -> & Hv).
      destruct Hj as [Hl EP]. simpl.
      destruct (pst st l) eqn:El.
      * erewrite settle_settled by (simpl; eauto).
        eapply inv_pop; eauto; try reflexivity. simpl. congruence.
      * erewrite settle_pending by (simpl; eauto). simpl.
        eapply inv_settle_load with (r := RAdopt l); eauto; try reflexivity.
        -- eapply updated_insert; eauto; reflexivity.
        -- simpl. apply Hv.
  - destruct Hj as [-> Hl]. destruct (pst st p) eqn:EP.
    + erewrite attach_settled by (simpl; eauto).
      eapply inv_thenable_settled; eauto; reflexivity.
    + erewrite attach_pending by (simpl; eauto). simpl.
      eapply inv_thenable_pending; eauto; try reflexivity.
      eapply updated_insert; eauto; reflexivity.
Qed.
End tick.

(** *** The network settles the request *)

Section fetch.
Variables (st : state) (p : pid).
Hypothesis Hinv : chain_inv st p.

Lemma inv_fetch o : chain_inv (net_settle o st) p.
Proof.
  open_inv Hinv.
  unfold net_settle. rewrite Hreq. simpl.
  destruct (pst st (p + 1)) eqn:E0.
  { rewrite (settle_settled _ _ _ _ E0). exact Hinv. }
  rewrite (settle_pending _ _ _ _ Hs0 E0).
  unfold link in L0. rewrite E0 in L0.
  destruct L0 as [R0 E1]. rewrite R0. simpl.
  match goal with |- chain_inv ?s _ => set (st' := s) end.
  destruct (updated_insert st st' (p + 1) _ (Some o) [] Hs0 eq_refl) as (Hsite & Hpst & Hrs).
  assert (Hq : queue st' = queue st ++ [JReact (RCatch (p + 2)) o]) by reflexivity.
  pose proof (same_fwd _ _ Hsite) as Hfwd.
  assert (Hkeep : forall q o, pst st q = Some o -> pst st' q = Some o).
  { intros q o' H. rewrite Hpst. case_decide; subst; congruence. }
  assert (Hloaded : forall v, loaded st p v -> loaded st' p v).
  { intros v [H1 H2]. split; [exact H1|]. auto. }
  assert (Hset' : settings st' = settings st) by reflexivity.
  assert (Htoasts' : toasts st' = toasts st) by reflexivity.
  assert (Hreq' : requests st' = requests st) by reflexivity.
  assert (Hbase' : baseUrl st' = baseUrl st) by reflexivity.
  clearbody st'.
  constructor; rewrite ?Hsite, ?Hpst, ?Hrs, ?Hq, ?Hset', ?Htoasts', ?Hreq', ?Hbase';
    dec; auto.
  - unfold link. rewrite !Hpst, Hrs, Hq. dec. rewrite E1. split; auto.
    apply in_or_app. right. left. reflexivity.
  - frame_link L1 Hpst Hrs. rewrite Hq. intros. apply in_or_app. auto.
  - frame_link L2 Hpst Hrs. rewrite Hq. intros. apply in_or_app. auto.
  - rewrite E1 in *. auto.
  - rewrite E1 in *. rewrite count_catch_app. simpl.
    rewrite (no_catch_job st p); auto.
  - destruct (pst st p); auto. destruct Hwait as (l & ls & ? & Hl). exists l, ls. split; auto.
    intros x Hx. apply (is_load_fwd st st'); auto.
  - intros v Hv Hn. apply fifo_app; auto.
  - intros j [Hj|Hj]%in_app_iff.
    + eapply job_ok_mono; eauto.
    + destruct Hj as [<-|[]]. simpl. split; auto. rewrite Hpst. dec. auto.
  - intros l Hl. apply (is_load_mono st st') in Hl; auto.
    destruct (chain_distinct_load _ _ Hinv _ Hl) as (? & ? & ? & ? & ?).
    eapply load_ok_frame; eauto; rewrite ?Hpst, ?Hrs; dec; auto.
    unfold woken. rewrite Hq, Hrs. dec.
    intros Hn [Hw|[Hw|[Hw|[[y Hw]|[y Hw]]]]]; eauto 8 using in_or_app.
  - intros g k d Hg. apply (is_get_mono st st') in Hg; auto.
    destruct (chain_distinct_get _ _ Hinv _ _ _ Hg) as (? & ? & ? & ? & ?).
    eapply get_ok_frame; eauto; rewrite ?Hpst, ?Hrs; dec; auto.
    unfold get_waits. rewrite Hq.
    intros Hn [(x & Hx & Hin)|[y Hin]]; eauto using in_or_app.
    left. exists x. split; [apply (is_load_fwd st st'); auto|].
    destruct (chain_distinct_load _ _ Hinv _ Hx) as (? & ? & ? & ? & ?).
    rewrite Hrs. dec. auto.
Qed.
End fetch.

(** *** Every step *)

Section slots.
Variable st : state.

Lemma promise_settle q o : promise (settle q o st) = promise st.
Proof. unfold settle. destruct (heap st !! q) as [[s [x|] r]|]; reflexivity. Qed.

Lemma baseUrl_settle q o : baseUrl (settle q o st) = baseUrl st.
Proof. unfold settle. destruct (heap st !! q) as [[s [x|] r]|]; reflexivity. Qed.

Lemma promise_attach q r : promise (attach q r st) = promise st.
Proof. unfold attach. destruct (heap st !! q) as [[s [x|] rr]|]; reflexivity. Qed.

Lemma baseUrl_attach q r : baseUrl (attach q r st) = baseUrl st.
Proof. unfold attach. destruct (heap st !! q) as [[s [x|] rr]|]; reflexivity. Qed.
End slots.

Lemma promise_run_job j st : promise (run_job j st) = promise st.
Proof.
  destruct j as [[] []|]; simpl; unfold complete;
    repeat match goal with
           | |- context [on_fetch_error ?e] => destruct (on_fetch_error e)
           end;
    rewrite ?promise_settle, ?promise_attach; reflexivity.
Qed.

Lemma baseUrl_run_job j st : baseUrl (run_job j st) = baseUrl st.
Proof.
  destruct j as [[] []|]; simpl; unfold complete;
    repeat match goal with
           | |- context [on_fetch_error ?e] => destruct (on_fetch_error e)
           end;
    rewrite ?baseUrl_settle, ?baseUrl_attach; reflexivity.
Qed.

Lemma baseUrl_load st : baseUrl (snd (load st)) = baseUrl st.
Proof.
  unfold load, alloc. simpl. destruct (is_null (settings st)); simpl.
  - destruct (promise st); simpl; rewrite ?baseUrl_attach; simpl;
      rewrite ?baseUrl_attach; simpl; rewrite ?baseUrl_attach; simpl;
      rewrite ?baseUrl_attach; reflexivity.
  - unfold complete. rewrite baseUrl_settle. reflexivity.
Qed.

(** [baseUrl] is never written after the class definition. *)
Lemma baseUrl_step ev st : baseUrl (step ev st) = baseUrl st.
Proof.
  destruct ev; simpl.
  - apply baseUrl_load.
  - unfold get, alloc. simpl.
    pose proof (baseUrl_load (set_heap (heap st ++ [mkCell (SGetCall setting defaultValue) None []]) st)) as H.
    destruct (load _) as [l st1]. simpl in *. rewrite baseUrl_attach. exact H.
  - unfold net_settle. destruct (requests st); auto. apply baseUrl_settle.
  - unfold net_settle. destruct (requests st); auto. apply baseUrl_settle.
  - destruct (queue st); auto. rewrite baseUrl_run_job. reflexivity.
  - reflexivity.
Qed.

Lemma promise_step ev st p : promise st = Some p -> promise (step ev st) = Some p.
Proof.
  intros Hp. destruct ev; simpl.
  - destruct (is_null (settings st)) eqn:Hn.
    + erewrite load_inflight by eauto. exact Hp.
    + rewrite load_cached by auto. exact Hp.
  - destruct (is_null (settings st)) eqn:Hn.
    + erewrite get_inflight by eauto. exact Hp.
    + rewrite get_cached by auto. exact Hp.
  - unfold net_settle. destruct (requests st); auto. rewrite promise_settle. auto.
  - unfold net_settle. destruct (requests st); auto. rewrite promise_settle. auto.
  - destruct (queue st); auto. rewrite promise_run_job. exact Hp.
  - exact Hp.
Qed.

Lemma inv_env st p e : chain_inv st p -> chain_inv (set_env e st) p.
Proof. intros []. constructor; auto. Qed.

Theorem step_inv ev st : Inv st -> Inv (step ev st).
Proof.
  intros Hinv. pose proof Hinv as H. unfold Inv in H.
  destruct (promise st) as [p|] eqn:Hp.
  - unfold Inv. rewrite (promise_step ev st p Hp).
    destruct ev; simpl.
    + apply inv_load; auto.
    + apply inv_get; auto.
    + apply inv_fetch; auto.
    + apply inv_fetch; auto.
    + apply (inv_tick st p H).
    + apply inv_env; auto.
  - destruct H as (Hs & Hh & Hq & Hr & Ht).
    destruct ev; simpl.
    + apply inv_first_load; auto.
    + apply inv_first_get; auto.
    + unfold net_settle. rewrite Hr. exact Hinv.
    + unfold net_settle. rewrite Hr. exact Hinv.
    + rewrite Hq. exact Hinv.
    + unfold Inv. simpl. rewrite Hp. auto.
Qed.

Theorem run_inv evs st : Inv st -> Inv (run evs st).
Proof.
  revert st. induction evs as [|ev evs IH]; intros st H; simpl; auto.
  apply IH. apply step_inv. exact H.
Qed.

Corollary reachable_inv e evs : Inv (run evs (init e)).
Proof. apply run_inv, init_inv. Qed.

(** ** What no step undoes *)

Lemma grows_refl st : grows st st.
Proof. split; auto. Qed.

Lemma grows_trans st1 st2 st3 : grows st1 st2 -> grows st2 st3 -> grows st1 st3.
Proof. intros [A B] [C D]. split; auto. Qed.

Lemma grows_same st st' : heap st' = heap st -> grows st st'.
Proof. intros H. unfold grows. rewrite H. auto. Qed.

Lemma grows_settle q o st : grows st (settle q o st).
Proof.
  unfold settle. destruct (heap st !! q) as [[s [x|] r]|] eqn:E; try apply grows_refl.
  assert (Hs : site_at st q = Some s) by (unfold hsite; rewrite E; reflexivity).
  assert (Hp : pst st q = None) by (unfold hpst; rewrite E; reflexivity).
  split; simpl; intros q' x H.
  - rewrite hsite_update; auto.
  - rewrite hpst_insert by (eapply hsite_lt; eauto).
    case_decide; subst; congruence.
Qed.

Lemma grows_attach q r st : grows st (attach q r st).
Proof.
  unfold attach. destruct (heap st !! q) as [[s [x|] rr]|] eqn:E;
    [apply grows_same; reflexivity| |apply grows_refl].
  assert (Hs : site_at st q = Some s) by (unfold hsite; rewrite E; reflexivity).
  assert (Hp : pst st q = None) by (unfold hpst; rewrite E; reflexivity).
  split; simpl; intros q' x H.
  - rewrite hsite_update; auto.
  - rewrite hpst_insert by (eapply hsite_lt; eauto).
    case_decide; subst; simpl; congruence.
Qed.

Lemma grows_set_heap_app cs st : grows st (set_heap (heap st ++ cs) st).
Proof.
  split; simpl; intros q x H.
  - apply hsite_app_old; auto.
  - rewrite hpst_app, decide_True; auto. eapply hpst_lt; eauto.
Qed.

Lemma grows_set_promise p st : grows st (set_promise p st).
Proof. apply grows_same. reflexivity. Qed.

Lemma grows_set_requests r st : grows st (set_requests r st).
Proof. apply grows_same. reflexivity. Qed.

Lemma grows_set_toasts t st : grows st (set_toasts t st).
Proof. apply grows_same. reflexivity. Qed.

Lemma grows_set_settings v st : grows st (set_settings v st).
Proof. apply grows_same. reflexivity. Qed.

Lemma grows_set_queue q st : grows st (set_queue q st).
Proof. apply grows_same. reflexivity. Qed.

Ltac grows_chain :=
  repeat first
    [ apply grows_refl
    | eapply grows_trans;
      [|first [ apply grows_settle | apply grows_attach | apply grows_set_heap_app
              | apply grows_set_promise | apply grows_set_requests
              | apply grows_set_toasts | apply grows_set_settings
              | apply grows_set_queue ]] ].

Lemma grows_run_job j st : grows st (run_job j st).
Proof.
  destruct j as [[] []|]; simpl; unfold complete;
    repeat match goal with
           | |- context [on_fetch_error ?e] => destruct (on_fetch_error e)
           end;
    grows_chain.
Qed.

Lemma grows_load st : grows st (snd (load st)).
Proof.
  unfold load, alloc, complete, enqueue. simpl.
  destruct (is_null (settings st)); simpl; [|grows_chain].
  destruct (promise st); simpl; grows_chain.
Qed.

Lemma grows_get k d st : grows st (snd (get k d st)).
Proof.
  unfold get, alloc. simpl.
  eapply grows_trans; [apply (grows_set_heap_app [mkCell (SGetCall k d) None []])|].
  eapply grows_trans; [apply grows_load|].
  destruct (load _) as [l st1]. simpl. apply grows_attach.
Qed.

Lemma grows_step ev st : grows st (step ev st).
Proof.
  destruct ev; simpl.
  - apply grows_load.
  - apply grows_get.
  - unfold net_settle. destruct (requests st); [apply grows_refl|apply grows_settle].
  - unfold net_settle. destruct (requests st); [apply grows_refl|apply grows_settle].
  - destruct (queue st); [apply grows_refl|].
    eapply grows_trans; [apply grows_set_queue|apply grows_run_job].
  - apply grows_same. reflexivity.
Qed.

Lemma grows_run evs st : grows st (run evs st).
Proof.
  revert st. induction evs as [|ev evs IH]; intros st; simpl; [apply grows_refl|].
  eapply grows_trans; [apply grows_step|apply IH].
Qed.

Lemma settings_settle q o st : settings (settle q o st) = settings st.
Proof. unfold settle. destruct (heap st !! q) as [[s [x|] r]|]; reflexivity. Qed.

Lemma settings_attach q r st : settings (attach q r st) = settings st.
Proof. unfold attach. destruct (heap st !! q) as [[s [x|] rr]|]; reflexivity. Qed.

Lemma settings_run_job j st :
  settings (run_job j st)
  = match j with
    | JReact (RAwaitLoad _) (Fulfilled v) => v
    | _ => settings st
    end.
Proof.
  destruct j as [[] []|]; simpl; unfold complete;
    repeat match goal with
           | |- context [on_fetch_error ?e] => destruct (on_fetch_error e)
           end;
    rewrite ?settings_settle, ?settings_attach; simpl;
    rewrite ?settings_settle; reflexivity.
Qed.

Lemma baseUrl_run evs st : baseUrl (run evs st) = baseUrl st.
Proof.
  revert st. induction evs as [|ev evs IH]; intros st; simpl; auto.
  rewrite IH. apply baseUrl_step.
Qed.

Lemma promise_run evs st p : promise st = Some p -> promise (run evs st) = Some p.
Proof.
  revert st. induction evs as [|ev evs IH]; intros st H; simpl; auto.
  apply IH. apply promise_step. exact H.
Qed.

Lemma fst_get k d st : fst (get k d st) = length (heap st).
Proof. unfold get, alloc. simpl. destruct (load _). reflexivity. Qed.

(** ** Consequences of the invariant *)

Section consequences.
Variable st : state.
Hypothesis Hinv : Inv st.

Lemma inv_promise p : promise st = Some p -> chain_inv st p.
Proof. intros H. unfold Inv in Hinv. rewrite H in Hinv. exact Hinv. Qed.

Lemma inv_unloaded : promise st = None -> settings st = VNull /\ requests st = [].
Proof. intros H. unfold Inv in Hinv. rewrite H in Hinv. tauto. Qed.

(** At most one request, and exactly one as soon as [load] was called. *)
Lemma requests_cases :
  (promise st = None /\ requests st = [] /\ heap st = [])
  \/ exists p, promise st = Some p /\ chain_inv st p
               /\ requests st = [mkRequest "GET" "/ui-settings" (baseUrl st) (p + 1)].
Proof.
  unfold Inv in Hinv. destruct (promise st) as [p|].
  - right. exists p. split; [reflexivity|]. split; [exact Hinv|].
    apply (c_requests _ _ Hinv).
  - left. tauto.
Qed.

Lemma fetch_outcome_chain o :
  fetch_outcome st = Some o ->
  exists p, promise st = Some p /\ chain_inv st p /\ pst st (p + 1) = Some o.
Proof.
  unfold fetch_outcome. destruct requests_cases as [(_ & -> & _)|(p & Hp & Hc & ->)].
  - discriminate.
  - simpl. eauto.
Qed.

Lemma settings_promise : is_null (settings st) = false -> exists p, promise st = Some p.
Proof.
  intros Hn. destruct (promise st) as [p|] eqn:Hp; eauto.
  destruct (inv_unloaded Hp) as [E _]. rewrite E in Hn. discriminate.
Qed.

(** Once cached, the settings are never replaced. *)
Lemma settings_step ev :
  is_null (settings st) = false -> settings (step ev st) = settings st.
Proof.
  intros Hn. destruct (settings_promise Hn) as [p Hp].
  pose proof (inv_promise _ Hp) as Hc.
  destruct ev; simpl.
  - rewrite load_cached by auto. reflexivity.
  - rewrite get_cached by auto. reflexivity.
  - unfold net_settle. destruct (requests st); auto. apply settings_settle.
  - unfold net_settle. destruct (requests st); auto. apply settings_settle.
  - destruct (queue st) as [|j rest] eqn:Eq; auto.
    rewrite settings_run_job. destruct j as [[] [v|]|]; auto. simpl.
    assert (Hj : job_ok st p (JReact (RAwaitLoad l) (Fulfilled v))).
    { apply (c_jobs _ _ Hc). rewrite Eq. left. reflexivity. }
    destruct Hj as [_ EP].
    destruct (c_settings _ _ Hc) as [E|E]; [rewrite E in Hn; discriminate|].
    congruence.
  - reflexivity.
Qed.
End consequences.

Lemma settings_run evs st :
  Inv st -> is_null (settings st) = false -> settings (run evs st) = settings st.
Proof.
  revert st. induction evs as [|ev evs IH]; intros st Hinv Hn; simpl; auto.
  pose proof (settings_step st Hinv ev Hn) as E.
  rewrite IH; auto using step_inv. congruence.
Qed.

Lemma requests_run evs st p :
  Inv st -> promise st = Some p -> requests (run evs st) = requests st.
Proof.
  intros Hinv Hp.
  pose proof (inv_promise _ Hinv _ Hp) as Hc.
  pose proof (inv_promise _ (run_inv evs st Hinv) _ (promise_run evs st p Hp)) as Hc'.
  rewrite (c_requests _ _ Hc), (c_requests _ _ Hc'), baseUrl_run. reflexivity.
Qed.

(** *** When the queue is empty *)

Section quiescent.
Variables (st : state) (p : pid).
Hypothesis Hinv : chain_inv st p.
Hypothesis Hq : queue st = [].

(** Everything the outcome of the request entails has happened. *)
Lemma quiescent_chain o :
  pst st (p + 1) = Some o ->
  pst st (p + 2) = Some (catch_outcome o)
  /\ pst st (p + 3) = Some (map_outcome (catch_outcome o))
  /\ pst st p = chain_outcome o
  /\ toasts st = catch_toasts o.
Proof.
  intros E0. open_inv Hinv. unfold link in *. rewrite Hq in *.
  rewrite E0 in L0, Htoasts. destruct L0 as [_ L0].
  destruct (pst st (p + 2)) as [o1|]; [subst o1|contradiction].
  destruct L1 as [_ L1].
  destruct (pst st (p + 3)) as [o2|]; [subst o2|contradiction].
  destruct L2 as [_ L2].
  destruct (pst st (p + 4)) as [o3|]; [subst o3|contradiction].
  auto.
Qed.

Lemma quiescent_settings v :
  pst st p = Some (Fulfilled v) -> settings st = v.
Proof.
  intros EP. destruct (c_settings _ _ Hinv) as [E|E]; [|congruence].
  destruct (c_fifo _ _ Hinv _ EP E) as (pre & l & post & Eq & _).
  rewrite Hq in Eq. destruct pre; discriminate.
Qed.

Lemma quiescent_load v l :
  pst st p = Some (Fulfilled v) -> is_load st l -> pst st l = Some (Fulfilled v).
Proof.
  intros EP Hl. pose proof (c_loads _ _ Hinv l Hl) as H. unfold load_ok in H.
  pose proof (c_waiting _ _ Hinv) as Hw. rewrite EP in Hw.
  destruct (pst st l) as [o|].
  - destruct H as (_ & w & -> & [_ Hw']). congruence.
  - exfalso. destruct H as [_ H]. unfold woken in H. rewrite Hq, Hw in H.
    simpl in H. destruct H as [[]|[[]|[[]|[[? []]|[? []]]]]].
Qed.

Lemma quiescent_get v g k d :
  pst st p = Some (Fulfilled v) -> is_get st g k d ->
  pst st g = Some (settled_of (get_resume v k d)).
Proof.
  intros EP Hg. pose proof (c_gets _ _ Hinv g k d Hg) as [_ H].
  destruct (pst st g) as [o|].
  - destruct H as (w & [_ Hw] & ->). congruence.
  - exfalso. destruct H as [(l & Hl & Hin)|[o Hin]].
    + pose proof (quiescent_load _ _ EP Hl) as El.
      pose proof (c_loads _ _ Hinv l Hl) as H. unfold load_ok in H.
      rewrite El in H. destruct H as [R _]. rewrite R in Hin. destruct Hin.
    + rewrite Hq in Hin. destruct Hin.
Qed.
End quiescent.

(** *** When the request has failed *)

Section failed.
Variables (st : state) (p : pid) (error : value).
Hypothesis Hinv : chain_inv st p.
Hypothesis Hfail : pst st (p + 1) = Some (Rejected error).

Lemma catch_rejected_cases :
  catch_outcome (Rejected error) = Fulfilled VUndefined
  \/ catch_outcome (Rejected error) = Rejected VTypeError.
Proof.
  simpl. unfold on_fetch_error. destruct (get_prop error "status") as [s|]; auto.
  destruct (negb (truthy s)); auto.
Qed.

Lemma map_after_failure :
  map_outcome (catch_outcome (Rejected error)) = Rejected VTypeError.
Proof. destruct catch_rejected_cases as [-> | ->]; reflexivity. Qed.

(** The promise of [new Promise] stays pending. *)
Lemma failed_pending : pst st p = None.
Proof.
  destruct (pst st p) as [o|] eqn:EP; auto. exfalso.
  destruct (chain_resolved _ _ Hinv _ EP) as (r & u & E1 & Em & _).
  pose proof (c_link_0 _ _ Hinv) as L0. unfold link in L0.
  rewrite Hfail, E1 in L0. destruct L0 as [_ L0].
  destruct catch_rejected_cases as [E|E]; rewrite E in L0; [|discriminate].
  injection L0 as ->. discriminate.
Qed.

Lemma failed_settings : settings st = VNull.
Proof.
  destruct (c_settings _ _ Hinv) as [E|E]; auto.
  rewrite failed_pending in E. discriminate.
Qed.

Lemma failed_load l : is_load st l -> pst st l = None.
Proof.
  intros Hl. pose proof (c_loads _ _ Hinv l Hl) as H. unfold load_ok in H.
  destruct (pst st l); auto. destruct H as (_ & w & _ & [_ Hw]).
  rewrite failed_pending in Hw. discriminate.
Qed.

Lemma failed_get g k d : is_get st g k d -> pst st g = None.
Proof.
  intros Hg. pose proof (c_gets _ _ Hinv g k d Hg) as [_ H].
  destruct (pst st g); auto. destruct H as (w & [_ Hw] & _).
  rewrite failed_pending in Hw. discriminate.
Qed.
End failed.

(** ** Reachable states, drained *)

Lemma drain_inv st : Inv st -> Inv (drain st).
Proof. apply run_inv. Qed.

Lemma drain_grows st : grows st (drain st).
Proof. apply grows_run. Qed.

Section drained.
Variable st : state.
Hypothesis Hinv : Inv st.

Lemma drained_chain o :
  fetch_outcome st = Some o ->
  exists p, promise st = Some p /\ promise (drain st) = Some p
            /\ chain_inv (drain st) p
            /\ pst (drain st) (p + 1) = Some o
            /\ pst (drain st) (p + 2) = Some (catch_outcome o)
            /\ pst (drain st) (p + 3) = Some (map_outcome (catch_outcome o))
            /\ pst (drain st) p = chain_outcome o
            /\ toasts (drain st) = catch_toasts o.
Proof.
  intros Hf. destruct (fetch_outcome_chain _ Hinv _ Hf) as (p & Hp & Hc & E0).
  exists p. pose proof (promise_run (repeat Tick (weight st)) st p Hp) as Hp'.
  fold (ticks (weight st) st) in Hp'. fold (drain st) in Hp'.
  pose proof (inv_promise _ (drain_inv _ Hinv) _ Hp') as Hc'.
  pose proof (proj2 (drain_grows st) _ _ E0) as E0'.
  destruct (quiescent_chain _ _ Hc' (drain_quiescent st) _ E0') as (? & ? & ? & ?).
  repeat (split; [assumption|]). assumption.
Qed.

(** A successful request, mapped, ends up in the slot and in every
    [load] call. *)
Lemma drained_loaded response s :
  fetch_outcome st = Some (Fulfilled response) ->
  mapSettingsResponse response = Return s ->
  settings (drain st) = s
  /\ promise_outcome (drain st) = Some (Fulfilled s)
  /\ (forall l, is_load st l -> pst (drain st) l = Some (Fulfilled s))
  /\ (forall g k d, is_get st g k d ->
        pst (drain st) g = Some (settled_of (get_resume s k d))).
Proof.
  intros Hf Hm.
  destruct (drained_chain _ Hf) as (p & Hp & Hp' & Hc & _ & _ & _ & EP & _).
  unfold chain_outcome in EP. simpl in EP. rewrite Hm in EP. simpl in EP.
  pose proof (drain_quiescent st) as Hq.
  unfold promise_outcome. rewrite Hp'.
  split; [eapply quiescent_settings; eauto|]. split; [exact EP|]. split.
  - intros l Hl. eapply quiescent_load; eauto.
    apply (proj1 (drain_grows st)). exact Hl.
  - intros g k d Hg. eapply quiescent_get; eauto.
    apply (proj1 (drain_grows st)). exact Hg.
Qed.

(** A [get] issued once the settings are cached settles, after the
    queue has drained, to what the code after its [await] makes of the
    cached settings. *)
Lemma get_after_loaded k d :
  is_null (settings st) = false ->
  pst (drain (snd (get k d st))) (fst (get k d st))
  = Some (settled_of (get_resume (settings st) k d)).
Proof.
  intros Hn. destruct (settings_promise _ Hinv Hn) as [p Hp].
  pose proof (inv_promise _ Hinv _ Hp) as Hc.
  destruct (settings_loaded _ _ Hc Hn) as [_ EP].
  pose proof (step_inv (CallGet k d) st Hinv) as Hinv2. simpl in Hinv2.
  pose proof (promise_step (CallGet k d) st p Hp) as Hp2. simpl in Hp2.
  rewrite fst_get.
  assert (Hg : is_get (snd (get k d st)) (length (heap st)) k d).
  { rewrite get_cached by exact Hn. unfold is_get. simpl.
    rewrite <- (Nat.add_0_r (length (heap st))), hsite_app_new. reflexivity. }
  set (st2 := snd (get k d st)) in *.
  pose proof (promise_run (repeat Tick (weight st2)) st2 p Hp2) as Hp3.
  fold (ticks (weight st2) st2) in Hp3. fold (drain st2) in Hp3.
  pose proof (inv_promise _ (drain_inv _ Hinv2) _ Hp3) as Hc3.
  eapply quiescent_get; eauto using drain_quiescent.
  - apply (proj2 (drain_grows st2)). apply (proj2 (grows_get k d st)). exact EP.
  - apply (proj1 (drain_grows st2)). exact Hg.
Qed.
End drained.

Lemma fetch_outcome_run evs st o :
  Inv st -> fetch_outcome st = Some o -> fetch_outcome (run evs st) = Some o.
Proof.
  intros Hinv Hf. destruct (fetch_outcome_chain _ Hinv _ Hf) as (p & Hp & Hc & E0).
  unfold fetch_outcome. rewrite (requests_run evs st p Hinv Hp), (c_requests _ _ Hc).
  simpl. apply (proj2 (grows_run evs st)). exact E0.
Qed.

Lemma load_has_promise st l : Inv st -> is_load st l -> exists p, promise st = Some p.
Proof.
  intros Hinv Hl. destruct (requests_cases _ Hinv) as [(_ & _ & Hh)|(p & Hp & _)]; eauto.
  unfold is_load in Hl. rewrite Hh in Hl. discriminate.
Qed.

(** ** The claims *)

(** C1. Once the [settings] slot is non-null, [load()] returns a promise
    that is already fulfilled with the cached value, schedules nothing and
    issues no request; and whatever happens afterwards (further calls
    included) neither replaces the cached value nor adds a request. *)
Theorem C1_cached_load_is_immediate (e : environment) (evs : list event) :
  let st := run evs (init e) in
  is_null (settings st) = false ->
  pst (snd (load st)) (fst (load st)) = Some (Fulfilled (settings st))
  /\ requests (snd (load st)) = requests st
  /\ queue (snd (load st)) = queue st
  /\ forall evs', settings (run evs' st) = settings st
                  /\ requests (run evs' st) = requests st.
Proof.
  intros st Hn. pose proof (reachable_inv e evs) as Hinv. fold st in Hinv.
  rewrite load_cached by exact Hn. simpl.
  split; [|split; [reflexivity|split; [reflexivity|]]].
  - rewrite <- (Nat.add_0_r (length (heap st))), hpst_app_new. reflexivity.
  - intros evs'. split; [apply settings_run; auto|].
    destruct (settings_promise _ Hinv Hn) as [p Hp].
    eapply requests_run; eauto.
Qed.

Lemma C1_witness :
  let st := run [CallLoad; FetchOk example_response; Tick; Tick; Tick; Tick]
                (init example_env) in
  is_null (settings st) = false
  /\ pst (snd (load st)) (fst (load st)) = Some (Fulfilled example_settings)
  /\ requests (run [CallLoad; CallGet "apiUrl" VUndefined; Tick; Tick] st) = requests st.
Proof.
  split; [reflexivity|].
  pose proof (C1_cached_load_is_immediate example_env
                [CallLoad; FetchOk example_response; Tick; Tick; Tick; Tick]
                eq_refl) as (H1 & _ & _ & H4).
  split; [exact H1|]. apply (H4 [CallLoad; CallGet "apiUrl" VUndefined; Tick; Tick]).
Defined.

(** C2. As soon as [load] has been called there is exactly one request,
    whatever else is called and however the calls interleave with the
    microtasks and the network; a call made while the settings are not
    cached and the [promise] slot is non-null issues no request and is
    returned that promise (its own promise is made to follow it); no two
    calls are fulfilled with different values; and when the request
    succeeds every call is fulfilled, with the mapped response. *)
Theorem C2_single_flight (e : environment) (evs : list event) (l1 l2 : pid) :
  let st := run evs (init e) in
  is_load st l1 -> is_load st l2 ->
  length (requests st) = 1
  /\ (forall evs', requests (run evs' st) = requests st)
  /\ (forall p, promise st = Some p -> is_null (settings st) = true ->
        requests (snd (load st)) = requests st
        /\ queue (snd (load st)) = queue st ++ [JThenable (fst (load st)) p])
  /\ (forall v1 v2, pst st l1 = Some (Fulfilled v1) ->
                    pst st l2 = Some (Fulfilled v2) -> v1 = v2)
  /\ (forall response s,
        fetch_outcome st = Some (Fulfilled response) ->
        mapSettingsResponse response = Return s ->
        pst (drain st) l1 = Some (Fulfilled s)
        /\ pst (drain st) l2 = Some (Fulfilled s)).
Proof.
  intros st H1 H2. pose proof (reachable_inv e evs) as Hinv. fold st in Hinv.
  destruct (load_has_promise _ _ Hinv H1) as [p Hp].
  pose proof (inv_promise _ Hinv _ Hp) as Hc.
  split; [rewrite (c_requests _ _ Hc); reflexivity|].
  split; [intros evs'; eapply requests_run; eauto|].
  split.
  { intros p' Hp' Hn. erewrite load_inflight by eauto. simpl. auto. }
  split.
  { intros v1 v2 E1 E2.
    pose proof (c_loads _ _ Hc l1 H1) as A. pose proof (c_loads _ _ Hc l2 H2) as B.
    unfold load_ok in A, B. rewrite E1 in A. rewrite E2 in B.
    destruct A as (_ & w1 & A1 & [A2 _]). destruct B as (_ & w2 & B1 & [B2 _]).
    congruence. }
  intros response s Hf Hm.
  destruct (drained_loaded _ Hinv _ _ Hf Hm) as (_ & _ & Hl & _). auto.
Qed.

Lemma C2_witness :
  let st := run [CallLoad; CallLoad; CallGet "apiUrl" VUndefined; Tick; CallLoad;
                 FetchOk example_response; CallLoad]
                (init example_env) in
  is_load st 0 /\ is_load st 9
  /\ length (requests st) = 1
  /\ pst (drain st) 0 = Some (Fulfilled example_settings)
  /\ pst (drain st) 9 = Some (Fulfilled example_settings).
Proof.
  split; [reflexivity|]. split; [reflexivity|].
  pose proof (C2_single_flight example_env
                [CallLoad; CallLoad; CallGet "apiUrl" VUndefined; Tick; CallLoad;
                 FetchOk example_response; CallLoad] 0 9 eq_refl eq_refl)
    as (H1 & _ & _ & _ & H5).
  split; [exact H1|]. apply (H5 example_response example_settings); reflexivity.
Defined.

(** C3. When the request is fulfilled with a response whose [data] has
    [api_url] equal to the string [s], the mapper renames it to [apiUrl],
    the slot ends up holding [{ apiUrl: s }], and [get('apiUrl')] is
    fulfilled with [s]: for a call made afterwards, and for the calls that
    were waiting. *)
Theorem C3_api_url_roundtrip (e : environment) (evs : list event)
    (response body : value) (s : string) :
  let st := run evs (init e) in
  fetch_outcome st = Some (Fulfilled response) ->
  get_prop response "data" = Some body ->
  get_prop body "api_url" = Some (VStr s) ->
  mapSettingsResponse response = Return (VObj [("apiUrl"%string, VStr s)])
  /\ settings (drain st) = VObj [("apiUrl"%string, VStr s)]
  /\ (forall d, pst (drain (snd (get "apiUrl" d (drain st))))
                    (fst (get "apiUrl" d (drain st)))
                = Some (Fulfilled (VStr s)))
  /\ (forall g d, is_get st g "apiUrl" d -> pst (drain st) g = Some (Fulfilled (VStr s))).
Proof.
  intros st Hf Hd Ha. pose proof (reachable_inv e evs) as Hinv. fold st in Hinv.
  assert (Hm : mapSettingsResponse response = Return (VObj [("apiUrl"%string, VStr s)])).
  { unfold mapSettingsResponse. rewrite Hd, Ha. reflexivity. }
  destruct (drained_loaded _ Hinv _ _ Hf Hm) as (Hs & _ & _ & Hg).
  split; [exact Hm|]. split; [exact Hs|]. split.
  - intros d. rewrite get_after_loaded.
    + rewrite Hs. reflexivity.
    + apply drain_inv. exact Hinv.
    + rewrite Hs. reflexivity.
  - intros g d H. rewrite (Hg g _ d H). reflexivity.
Qed.

Lemma C3_witness :
  let st := run [CallGet "apiUrl" VUndefined; FetchOk example_response]
                (init example_env) in
  fetch_outcome st = Some (Fulfilled example_response)
  /\ settings (drain st) = example_settings
  /\ pst (drain (snd (get "apiUrl" VUndefined (drain st))))
         (fst (get "apiUrl" VUndefined (drain st)))
     = Some (Fulfilled (VStr "http://example.com"))
  /\ pst (drain st) 0 = Some (Fulfilled (VStr "http://example.com")).
Proof.
  split; [reflexivity|].
  pose proof (C3_api_url_roundtrip example_env
                [CallGet "apiUrl" VUndefined; FetchOk example_response]
                example_response
                (VObj [("api_url"%string, VStr "http://example.com")])
                "http://example.com" eq_refl eq_refl eq_refl)
    as (_ & H2 & H3 & H4).
  split; [exact H2|]. split; [apply H3|]. apply (H4 0 VUndefined). reflexivity.
Defined.

(** The notification after a failed request, by the truthiness of the
    error's [status], which is what the guard [if (!error.status)] tests;
    before the handler has run none is shown, and never more than one. *)
Lemma toasts_after_failure (e : environment) (evs : list event)
    (error status : value) :
  let st := run evs (init e) in
  fetch_outcome st = Some (Rejected error) ->
  get_prop error "status" = Some status ->
  toasts (drain st)
  = (if truthy status then []
     else [mkToast ConnectionToastMessage "error"
                   (VObj [("timeout"%string, VBool false)])])
  /\ (toasts st = [] \/ toasts st = toasts (drain st)).
Proof.
  intros st Hf Hs. pose proof (reachable_inv e evs) as Hinv. fold st in Hinv.
  destruct (drained_chain _ Hinv _ Hf) as (p & Hp & _ & _ & _ & _ & _ & _ & Ht).
  assert (Hc : catch_toasts (Rejected error)
               = if truthy status then [] else [connection_toast]).
  { simpl. unfold on_fetch_error. rewrite Hs. destruct (truthy status); reflexivity. }
  rewrite Ht, Hc. split; [reflexivity|].
  pose proof (inv_promise _ Hinv _ Hp) as Hch.
  destruct (fetch_outcome_chain _ Hinv _ Hf) as (p' & Hp' & _ & E0).
  assert (p' = p) by congruence. subst p'.
  rewrite (c_toasts _ _ Hch), E0.
  destruct (pst st (p + 2)); auto.
Qed.

(** C4. When the request is rejected with an error object: if the error
    has no [status] field (a connectivity failure), the handler shows
    exactly one notification, of severity [error] and with
    [timeout: false]; if it has a [status] field holding an HTTP status
    code (an HTTP error), no notification is shown.  Before the handler
    has run none is shown. *)
Theorem C4_toast_without_http_status (e : environment) (evs : list event)
    (props : list (string * value)) :
  let st := run evs (init e) in
  fetch_outcome st = Some (Rejected (VObj props)) ->
  (has_field (VObj props) "status" = false ->
   toasts (drain st)
   = [mkToast ConnectionToastMessage "error" (VObj [("timeout"%string, VBool false)])])
  /\ (forall n, has_field (VObj props) "status" = true ->
        get_prop (VObj props) "status" = Some (VNum n) ->
        (100 <= n <= 599)%Z ->
        toasts (drain st) = [])
  /\ (toasts st = [] \/ toasts st = toasts (drain st)).
Proof.
  intros st Hf.
  assert (Hany : exists status, get_prop (VObj props) "status" = Some status)
    by (simpl; eauto).
  destruct Hany as [status0 Hs0].
  split; [|split].
  - intros Hno.
    assert (Hs : get_prop (VObj props) "status" = Some VUndefined).
    { simpl in *. destruct (own_prop props "status"); [discriminate|reflexivity]. }
    destruct (toasts_after_failure e evs _ _ Hf Hs) as [H _]. exact H.
  - intros n _ Hs Hn.
    destruct (toasts_after_failure e evs _ _ Hf Hs) as [H _].
    fold st in H. rewrite H. simpl.
    destruct (Z.eqb_spec n 0) as [->|_]; [lia|reflexivity].
  - destruct (toasts_after_failure e evs _ _ Hf Hs0) as [_ H]. exact H.
Qed.

Lemma C4_witness :
  let st := run [CallLoad; CallLoad; FetchFail network_error] (init example_env) in
  let st' := run [CallLoad; CallLoad; FetchFail http_error] (init example_env) in
  fetch_outcome st = Some (Rejected network_error)
  /\ has_field network_error "status" = false
  /\ toasts (drain st) = [connection_toast]
  /\ fetch_outcome st' = Some (Rejected http_error)
  /\ has_field http_error "status" = true
  /\ toasts (drain st') = [].
Proof.
  split; [reflexivity|]. split; [reflexivity|]. split; [|split; [reflexivity|split]].
  - apply (C4_toast_without_http_status example_env
             [CallLoad; CallLoad; FetchFail network_error]
             [("message"%string, VStr "Network Error")] eq_refl).
    reflexivity.
  - reflexivity.
  - destruct (C4_toast_without_http_status example_env
                [CallLoad; CallLoad; FetchFail http_error]
                [("message"%string, VStr "Request failed with status code 500");
                 ("status"%string, VNum 500)] eq_refl) as (_ & H & _).
    apply (H 500%Z); [reflexivity|reflexivity|lia].
Defined.

Lemma get_resume_missing v k d :
  opt_index v k = VUndefined -> truthy d = false ->
  get_resume v k d = Throw (VStr (missing_setting k)).
Proof. intros H1 H2. unfold get_resume. rewrite H1, H2. reflexivity. Qed.

Lemma get_resume_throws v k d e :
  get_resume v k d = Throw e ->
  e = VStr (missing_setting k) /\ opt_index v k = VUndefined /\ truthy d = false.
Proof.
  unfold get_resume. destruct (is_undefined (opt_index v k)) eqn:E; [|discriminate].
  destruct (truthy d); [discriminate|]. intros H. injection H as <-.
  destruct (opt_index v k); try discriminate. auto.
Qed.

(** C5. With the settings cached and the looked-up value [undefined],
    [get(key)] without a default is rejected with the message that quotes
    the key; and nothing else is ever thrown at a caller: a rejected
    promise of a call is the promise of a [get], rejected with that
    message for its own key. *)
Theorem C5_missing_setting_throws (e : environment) (evs : list event) (k : string) :
  let st := run evs (init e) in
  is_null (settings st) = false ->
  opt_index (settings st) k = VUndefined ->
  pst (drain (snd (get k VUndefined st))) (fst (get k VUndefined st))
  = Some (Rejected (VStr (missing_setting k)))
  /\ missing_setting k
     = ("UI setting " ++ dquote ++ k ++ dquote
          ++ " does not exist and no default was provided.")%string
  /\ (forall q err,
        pst st q = Some (Rejected err) ->
        is_load st q \/ (exists k' d', is_get st q k' d') ->
        exists k' d', is_get st q k' d' /\ err = VStr (missing_setting k')).
Proof.
  intros st Hn Hu. pose proof (reachable_inv e evs) as Hinv. fold st in Hinv.
  split; [|split; [reflexivity|]].
  - rewrite get_after_loaded by auto.
    rewrite get_resume_missing by auto. reflexivity.
  - intros q err Hq Hc. destruct (settings_promise _ Hinv Hn) as [p Hp].
    pose proof (inv_promise _ Hinv _ Hp) as Hch.
    destruct Hc as [Hl|(k' & d' & Hg)].
    + pose proof (c_loads _ _ Hch q Hl) as H. unfold load_ok in H. rewrite Hq in H.
      destruct H as (_ & w & H & _). discriminate.
    + exists k', d'. split; auto.
      pose proof (c_gets _ _ Hch q k' d' Hg) as [_ H]. rewrite Hq in H.
      destruct H as (w & _ & H).
      destruct (get_resume w k' d') eqn:E; simpl in H; [discriminate|].
      injection H as ->. apply get_resume_throws in E. tauto.
Qed.

Lemma C5_witness :
  let st := run [CallLoad; FetchOk example_response; Tick; Tick; Tick; Tick]
                (init example_env) in
  is_null (settings st) = false
  /\ opt_index (settings st) "missingKey" = VUndefined
  /\ pst (drain (snd (get "missingKey" VUndefined st)))
         (fst (get "missingKey" VUndefined st))
     = Some (Rejected (VStr (missing_setting "missingKey"))).
Proof.
  split; [reflexivity|]. split; [reflexivity|].
  apply (C5_missing_setting_throws example_env
           [CallLoad; FetchOk example_response; Tick; Tick; Tick; Tick]
           "missingKey" eq_refl eq_refl).
Defined.

(** C6 holds for the truthy defaults only. *)
Lemma get_default_truthy (e : environment) (evs : list event) (k : string) (d : value) :
  let st := run evs (init e) in
  is_null (settings st) = false ->
  opt_index (settings st) k = VUndefined ->
  truthy d = true ->
  pst (drain (snd (get k d st))) (fst (get k d st)) = Some (Fulfilled d).
Proof.
  intros st Hn Hu Ht. rewrite get_after_loaded by (auto; apply reachable_inv).
  unfold get_resume. fold st. rewrite Hu, Ht. reflexivity.
Qed.

(** C6, at the input where the code departs from it: with the settings
    cached and [missingKey] absent, [get('missingKey', '')] does not
    return the supplied default [''] but is rejected, with a message that
    says no default was provided. *)
Theorem C6_empty_default_is_rejected :
  let st := run [CallLoad; FetchOk example_response; Tick; Tick; Tick; Tick]
                (init example_env) in
  settings st = example_settings
  /\ opt_index (settings st) "missingKey" = VUndefined
  /\ pst (drain (snd (get "missingKey" (VStr "") st)))
         (fst (get "missingKey" (VStr "") st))
     = Some (Rejected (VStr ("UI setting " ++ dquote ++ "missingKey" ++ dquote
                               ++ " does not exist and no default was provided.")))
  /\ pst (drain (snd (get "missingKey" (VStr "fallback") st)))
         (fst (get "missingKey" (VStr "fallback") st))
     = Some (Fulfilled (VStr "fallback")).
Proof. vm_compute. repeat split. Qed.

(** C7. With the looked-up value [undefined], a default that was supplied
    but is falsy is not returned: the call is rejected exactly as if no
    default had been given, because the guard is [if (defaultValue)]. *)
Theorem C7_falsy_default_is_ignored (e : environment) (evs : list event)
    (k : string) (d : value) :
  let st := run evs (init e) in
  is_null (settings st) = false ->
  opt_index (settings st) k = VUndefined ->
  is_undefined d = false -> truthy d = false ->
  pst (drain (snd (get k d st))) (fst (get k d st))
  = Some (Rejected (VStr (missing_setting k)))
  /\ pst (drain (snd (get k d st))) (fst (get k d st))
     = pst (drain (snd (get k VUndefined st))) (fst (get k VUndefined st))
  /\ get_resume (settings st) k d
     = (if truthy d then Return d else Throw (VStr (missing_setting k))).
Proof.
  intros st Hn Hu Hd Ht. pose proof (reachable_inv e evs) as Hinv. fold st in Hinv.
  rewrite !get_after_loaded by auto.
  rewrite !get_resume_missing by auto. rewrite Ht. auto.
Qed.

Lemma C7_witness :
  let st := run [CallLoad; FetchOk example_response; Tick; Tick; Tick; Tick]
                (init example_env) in
  is_null (settings st) = false
  /\ opt_index (settings st) "missingKey" = VUndefined
  /\ is_undefined (VStr "") = false /\ truthy (VStr "") = false
  /\ pst (drain (snd (get "missingKey" (VStr "") st)))
         (fst (get "missingKey" (VStr "") st))
     = Some (Rejected (VStr (missing_setting "missingKey"))).
Proof.
  repeat (split; [reflexivity|]).
  apply (C7_falsy_default_is_ignored example_env
           [CallLoad; FetchOk example_response; Tick; Tick; Tick; Tick]
           "missingKey" (VStr "") eq_refl eq_refl eq_refl eq_refl).
Defined.

(** C8. [baseUrl] is what the class definition computed from the mode and
    the origin of that moment, [http://127.0.0.1:4200] exactly when the
    mode is [development]; nothing changes it afterwards, not even a
    change of the environment; and every request is a GET of
    [/ui-settings] against it. *)
Theorem C8_base_url (e : environment) (evs : list event) :
  let st := run evs (init e) in
  baseUrl st = (if String.eqb (MODE e) "development"
                then "http://127.0.0.1:4200"%string else location_origin e)
  /\ (MODE e = "development"%string -> baseUrl st = "http://127.0.0.1:4200"%string)
  /\ (MODE e <> "development"%string -> baseUrl st = location_origin e)
  /\ (forall rq, In rq (requests st) ->
        req_method rq = "GET"%string /\ req_url rq = "/ui-settings"%string
        /\ req_baseURL rq = baseUrl st).
Proof.
  intros st. pose proof (reachable_inv e evs) as Hinv. fold st in Hinv.
  assert (Hb : baseUrl st = resolve_base_url e) by apply baseUrl_run.
  rewrite Hb. unfold resolve_base_url.
  split; [reflexivity|]. split; [|split].
  - intros ->. reflexivity.
  - intros Hne. apply String.eqb_neq in Hne. rewrite Hne. reflexivity.
  - intros rq Hin.
    destruct (requests_cases _ Hinv) as [(_ & Hr & _)|(p & _ & _ & Hr)];
      rewrite Hr in Hin; [destruct Hin|destruct Hin as [<-|[]]].
    simpl. rewrite Hb. auto.
Qed.

Lemma C8_witness :
  let dev := mkEnv "development" "https://orion.example" in
  let st := run [EnvChange example_env; CallLoad; EnvChange example_env]
                (init dev) in
  let st' := run [EnvChange dev; CallLoad] (init example_env) in
  MODE dev = "development"%string
  /\ MODE example_env <> "development"%string
  /\ map req_baseURL (requests st) = ["http://127.0.0.1:4200"%string]
  /\ baseUrl st' = "https://orion.example"%string.
Proof.
  split; [reflexivity|]. split; [discriminate|]. split; [reflexivity|].
  apply (C8_base_url example_env
           [EnvChange (mkEnv "development" "https://orion.example"); CallLoad]).
  discriminate.
Defined.

(** After a failed request nothing is ever delivered. *)
Lemma failure_pending st error :
  Inv st -> fetch_outcome st = Some (Rejected error) ->
  promise st <> None
  /\ promise_outcome st = None
  /\ settings st = VNull
  /\ (forall l, is_load st l -> pst st l = None)
  /\ (forall g k d, is_get st g k d -> pst st g = None).
Proof.
  intros Hinv Hf. destruct (fetch_outcome_chain _ Hinv _ Hf) as (p & Hp & Hc & E0).
  unfold promise_outcome. rewrite Hp.
  split; [discriminate|]. split; [eapply failed_pending; eauto|].
  split; [eapply failed_settings; eauto|]. split.
  - intros l. eapply failed_load; eauto.
  - intros g k d. eapply failed_get; eauto.
Qed.

Lemma on_fetch_error_returns error status :
  get_prop error "status" = Some status ->
  snd (on_fetch_error error) = Return VUndefined.
Proof.
  intros H. unfold on_fetch_error. rewrite H. destruct (negb (truthy status)); reflexivity.
Qed.

Lemma drained_caught st error status :
  Inv st -> fetch_outcome st = Some (Rejected error) ->
  get_prop error "status" = Some status ->
  caught (drain st) = Some (Fulfilled VUndefined)
  /\ (caught st = None \/ caught st = Some (Fulfilled VUndefined)).
Proof.
  intros Hinv Hf Hs.
  destruct (drained_chain _ Hinv _ Hf) as (p & Hp & Hp' & _ & _ & E1 & _).
  unfold caught. rewrite Hp, Hp', E1. simpl.
  rewrite (on_fetch_error_returns _ _ Hs). split; [reflexivity|].
  destruct (fetch_outcome_chain _ Hinv _ Hf) as (p' & Hp'' & Hc & E0).
  assert (p' = p) by congruence. subst p'.
  pose proof (c_link_0 _ _ Hc) as L0. unfold link in L0. rewrite E0 in L0.
  destruct L0 as [_ L0]. destruct (pst st (p + 2)); auto.
  subst. simpl. rewrite (on_fetch_error_returns _ _ Hs). auto.
Qed.

(** C9, at an input where the code departs from it: [load()] and
    [get('apiUrl')] are called and the request fails with a network error.
    The handler of [.catch] has no [return], so what reaches
    [mapSettingsResponse] is [undefined], not the failure and not a
    response; reading [response.data] throws, [resolve] is never called,
    and the callers see no settings at all, degraded or not: whatever
    happens next, their promises stay pending. *)
Theorem C9_failure_leaves_callers_pending :
  let st := run [CallLoad; CallGet "apiUrl" VUndefined; FetchFail network_error]
                (init example_env) in
  fetch_outcome st = Some (Rejected network_error)
  /\ is_load st 0 /\ is_get st 6 "apiUrl" VUndefined
  /\ caught (drain st) = Some (Fulfilled VUndefined)
  /\ mapSettingsResponse VUndefined = Throw VTypeError
  /\ mapped (drain st) = Some (Rejected VTypeError)
  /\ promise_outcome (drain st) = None
  /\ queue (drain st) = [] /\ settings (drain st) = VNull
  /\ forall evs', pst (run evs' st) 0 = None /\ pst (run evs' st) 6 = None.
Proof.
  intros st.
  do 9 (split; [reflexivity|]).
  intros evs'.
  assert (Hinv : Inv st) by apply reachable_inv.
  assert (Hf : fetch_outcome (run evs' st) = Some (Rejected network_error)).
  { apply fetch_outcome_run; auto. }
  destruct (failure_pending _ _ (run_inv evs' _ Hinv) Hf) as (_ & _ & _ & Hl & Hg).
  split.
  - apply Hl. apply (proj1 (grows_run evs' st)). reflexivity.
  - apply (Hg 6 "apiUrl"%string VUndefined). apply (proj1 (grows_run evs' st)). reflexivity.
Qed.

(** C10. After a failed request the promise of [new Promise] never
    settles: the handler of [.catch] yields [undefined], on which
    [mapSettingsResponse] throws a [TypeError], so the promise of
    [.then(mapSettingsResponse)] is rejected and [resolve] is not called.
    In every state from there on [this.promise] is pending, the
    [settings] slot is [null], and the promise of every [load] and [get]
    call is pending. *)
Theorem C10_failure_never_settles (e : environment) (evs : list event) (error : value) :
  let st := run evs (init e) in
  fetch_outcome st = Some (Rejected error) ->
  (forall evs',
      let st' := run evs' st in
      promise st' <> None
      /\ promise_outcome st' = None
      /\ settings st' = VNull
      /\ (forall l, is_load st' l -> pst st' l = None)
      /\ (forall g k d, is_get st' g k d -> pst st' g = None))
  /\ (forall status, get_prop error "status" = Some status ->
        caught (drain st) = Some (Fulfilled VUndefined))
  /\ mapSettingsResponse VUndefined = Throw VTypeError
  /\ mapped (drain st) = Some (Rejected VTypeError)
  /\ queue (drain st) = [].
Proof.
  intros st Hf. pose proof (reachable_inv e evs) as Hinv. fold st in Hinv.
  split; [|split; [|split; [reflexivity|split]]].
  - intros evs' st'. apply (failure_pending st' error).
    + apply run_inv. exact Hinv.
    + apply fetch_outcome_run; auto.
  - intros status Hs. eapply drained_caught; eauto.
  - destruct (drained_chain _ Hinv _ Hf) as (p & Hp & Hp' & Hc & E0 & _ & E2 & _).
    unfold mapped. rewrite Hp', E2. f_equal.
    eapply map_after_failure; eauto.
  - apply drain_quiescent.
Qed.

Lemma C10_witness :
  let st := run [CallLoad; CallGet "apiUrl" (VStr "x"); FetchFail network_error]
                (init example_env) in
  let st' := run [Tick; Tick; Tick; Tick; CallLoad; Tick; Tick] st in
  fetch_outcome st = Some (Rejected network_error)
  /\ promise_outcome st' = None /\ settings st' = VNull
  /\ is_load st' 0 /\ pst st' 0 = None
  /\ is_get st' 6 "apiUrl" (VStr "x") /\ pst st' 6 = None
  /\ mapped (drain st) = Some (Rejected VTypeError).
Proof.
  split; [reflexivity|].
  pose proof (C10_failure_never_settles example_env
                [CallLoad; CallGet "apiUrl" (VStr "x"); FetchFail network_error]
                network_error eq_refl) as (H1 & _ & _ & H4 & _).
  destruct (H1 [Tick; Tick; Tick; Tick; CallLoad; Tick; Tick]) as (_ & A & B & C & D).
  split; [exact A|]. split; [exact B|].
  split; [reflexivity|]. split; [apply C; reflexivity|].
  split; [reflexivity|]. split; [apply (D 6 "apiUrl"%string (VStr "x")); reflexivity|].
  exact H4.
Defined.

(** ** Further properties of [load], [get] and [mapSettingsResponse] *)


(** What the slot holds was mapped from the response of the request. *)
Lemma settings_origin st :
  Inv st -> is_null (settings st) = false ->
  exists response body u,
    fetch_outcome st = Some (Fulfilled response)
    /\ get_prop response "data" = Some body
    /\ get_prop body "api_url" = Some u
    /\ settings st = VObj [("apiUrl"%string, u)].
Proof.
  intros Hinv Hn. destruct (settings_promise _ Hinv Hn) as [p Hp].
  pose proof (inv_promise _ Hinv _ Hp) as Hc.
  destruct (settings_loaded _ _ Hc Hn) as [_ EP].
  destruct (chain_resolved _ _ Hc _ EP) as (r & u & E1 & Em & Es).
  injection Es as Es.
  pose proof (c_link_0 _ _ Hc) as L0. unfold link in L0.
  destruct (pst st (p + 1)) as [o0|] eqn:E0; [|destruct L0; congruence].
  rewrite E1 in L0. destruct L0 as [_ L0].
  assert (Hf : fetch_outcome st = Some o0).
  { unfold fetch_outcome. rewrite (c_requests _ _ Hc). exact E0. }
  destruct o0 as [response|error].
  - simpl in L0. injection L0 as ->. exists response.
    unfold mapSettingsResponse in Em.
    destruct (get_prop response "data") as [body|] eqn:Ed; [|discriminate].
    destruct (get_prop body "api_url") as [u'|] eqn:Ea; [|discriminate].
    injection Em as ->. exists body, u. subst. auto.
  - exfalso. destruct (catch_rejected_cases error) as [E|E]; rewrite E in L0;
      [|discriminate].
    injection L0 as ->. discriminate.
Qed.

(** When the mapper throws on the response, nothing is delivered. *)
Lemma unmapped_pending st response err :
  Inv st -> fetch_outcome st = Some (Fulfilled response) ->
  mapSettingsResponse response = Throw err ->
  promise_outcome st = None
  /\ settings st = VNull
  /\ toasts st = []
  /\ (forall l, is_load st l -> pst st l = None)
  /\ (forall g k d, is_get st g k d -> pst st g = None).
Proof.
  intros Hinv Hf Hm.
  destruct (fetch_outcome_chain _ Hinv _ Hf) as (p & Hp & Hc & E0).
  assert (EP : pst st p = None).
  { destruct (pst st p) as [o|] eqn:EP; auto. exfalso.
    destruct (chain_resolved _ _ Hc _ EP) as (r & u & E1 & Em & _).
    pose proof (c_link_0 _ _ Hc) as L0. unfold link in L0.
    rewrite E0, E1 in L0. destruct L0 as [_ L0]. simpl in L0.
    injection L0 as ->. congruence. }
  unfold promise_outcome. rewrite Hp.
  split; [exact EP|]. split; [|split; [|split]].
  - destruct (c_settings _ _ Hc) as [E|E]; auto. rewrite EP in E. discriminate.
  - rewrite (c_toasts _ _ Hc), E0. destruct (pst st (p + 2)); reflexivity.
  - intros l Hl. pose proof (c_loads _ _ Hc l Hl) as H. unfold load_ok in H.
    destruct (pst st l); auto. destruct H as (_ & w & _ & [_ Hw]).
    rewrite EP in Hw. discriminate.
  - intros g k d Hg. pose proof (c_gets _ _ Hc g k d Hg) as [_ H].
    destruct (pst st g); auto. destruct H as (w & [_ Hw] & _).
    rewrite EP in Hw. discriminate.
Qed.

Lemma mapper_throws response err :
  mapSettingsResponse response = Throw err ->
  err = VTypeError
  /\ (get_prop response "data" = None
      \/ exists body, get_prop response "data" = Some body
                      /\ get_prop body "api_url" = None).
Proof.
  unfold mapSettingsResponse. destruct (get_prop response "data") as [body|].
  - destruct (get_prop body "api_url") eqn:E; [discriminate|].
    intros H. injection H as <-. eauto.
  - intros H. injection H as <-. auto.
Qed.

(** X1. A response whose [data] has no [api_url] (an empty object, a
    string, a number) still counts as a success: the slot ends up holding
    [{ apiUrl: undefined }], every [load] call is fulfilled with it, and a
    waiting [get('apiUrl', d)] whose default [d] is not a thenable is
    fulfilled with [d] when [d] is truthy and rejected with the
    missing-setting message otherwise. *)
Theorem X1_response_without_api_url (e : environment) (evs : list event)
    (response body : value) :
  let st := run evs (init e) in
  fetch_outcome st = Some (Fulfilled response) ->
  get_prop response "data" = Some body ->
  get_prop body "api_url" = Some VUndefined ->
  settings (drain st) = VObj [("apiUrl"%string, VUndefined)]
  /\ (forall l, is_load st l ->
        pst (drain st) l = Some (Fulfilled (VObj [("apiUrl"%string, VUndefined)])))
  /\ (forall g d, is_get st g "apiUrl" d -> thenable d = false ->
        pst (drain st) g
        = Some (if truthy d then Fulfilled d
                else Rejected (VStr (missing_setting "apiUrl")))).
Proof.
  intros st Hf Hd Ha. pose proof (reachable_inv e evs) as Hinv. fold st in Hinv.
  assert (Hm : mapSettingsResponse response
               = Return (VObj [("apiUrl"%string, VUndefined)])).
  { unfold mapSettingsResponse. rewrite Hd, Ha. reflexivity. }
  destruct (drained_loaded _ Hinv _ _ Hf Hm) as (Hs & _ & Hl & Hg).
  split; [exact Hs|]. split; [exact Hl|].
  intros g d H _. rewrite (Hg g _ d H). unfold get_resume. simpl.
  destruct (truthy d); reflexivity.
Qed.

Lemma X1_witness :
  let response := VObj [("data"%string, VStr "<!doctype html>")] in
  let st := run [CallGet "apiUrl" VUndefined; CallGet "apiUrl" (VStr "http://fallback");
                 CallLoad; FetchOk response]
                (init example_env) in
  fetch_outcome st = Some (Fulfilled response)
  /\ get_prop response "data" = Some (VStr "<!doctype html>")
  /\ get_prop (VStr "<!doctype html>") "api_url" = Some VUndefined
  /\ is_get st 0 "apiUrl" VUndefined
  /\ is_get st 7 "apiUrl" (VStr "http://fallback")
  /\ thenable VUndefined = false /\ thenable (VStr "http://fallback") = false
  /\ pst (drain st) 0 = Some (Rejected (VStr (missing_setting "apiUrl")))
  /\ pst (drain st) 7 = Some (Fulfilled (VStr "http://fallback")).
Proof.
  do 7 (split; [reflexivity|]).
  pose proof (X1_response_without_api_url example_env
                [CallGet "apiUrl" VUndefined; CallGet "apiUrl" (VStr "http://fallback");
                 CallLoad; FetchOk (VObj [("data"%string, VStr "<!doctype html>")])]
                (VObj [("data"%string, VStr "<!doctype html>")])
                (VStr "<!doctype html>") eq_refl eq_refl eq_refl) as (_ & _ & H).
  split.
  - apply (H 0 VUndefined); reflexivity.
  - apply (H 7 (VStr "http://fallback")); reflexivity.
Defined.

(** X2. A request that succeeds with a response on which the mapper
    throws (its [data] is [null] or [undefined]) is as bad as a failed
    one, and silent: the error is a [TypeError] that rejects the promise
    of [.then(mapSettingsResponse)], and in every state from there on
    [this.promise] is pending, the slot is [null], no notification is
    shown, and the promise of every [load] and [get] call is pending. *)
Theorem X2_unmappable_response_hangs (e : environment) (evs : list event)
    (response err : value) :
  let st := run evs (init e) in
  fetch_outcome st = Some (Fulfilled response) ->
  mapSettingsResponse response = Throw err ->
  err = VTypeError
  /\ (get_prop response "data" = None
      \/ exists body, get_prop response "data" = Some body
                      /\ get_prop body "api_url" = None)
  /\ mapped (drain st) = Some (Rejected VTypeError)
  /\ (forall evs',
        let st' := run evs' st in
        promise_outcome st' = None
        /\ settings st' = VNull
        /\ toasts st' = []
        /\ (forall l, is_load st' l -> pst st' l = None)
        /\ (forall g k d, is_get st' g k d -> pst st' g = None)).
Proof.
  intros st Hf Hm. pose proof (reachable_inv e evs) as Hinv. fold st in Hinv.
  destruct (mapper_throws _ _ Hm) as [-> Hwhy].
  split; [reflexivity|]. split; [exact Hwhy|]. split.
  - destruct (drained_chain _ Hinv _ Hf) as (p & _ & Hp' & _ & _ & _ & E2 & _).
    unfold mapped. rewrite Hp', E2. simpl. rewrite Hm. reflexivity.
  - intros evs' st'. apply (unmapped_pending st' response VTypeError).
    + apply run_inv. exact Hinv.
    + apply fetch_outcome_run; auto.
    + exact Hm.
Qed.

Lemma X2_witness :
  let response := VObj [("data"%string, VNull); ("status"%string, VNum 200)] in
  let st := run [CallGet "apiUrl" (VStr "http://fallback"); FetchOk response]
                (init example_env) in
  let st' := run [Tick; Tick; Tick; CallLoad; Tick; Tick] st in
  fetch_outcome st = Some (Fulfilled response)
  /\ mapSettingsResponse response = Throw VTypeError
  /\ is_get st' 0 "apiUrl" (VStr "http://fallback")
  /\ pst st' 0 = None /\ settings st' = VNull /\ toasts st' = [].
Proof.
  split; [reflexivity|]. split; [reflexivity|]. split; [reflexivity|].
  pose proof (X2_unmappable_response_hangs example_env
                [CallGet "apiUrl" (VStr "http://fallback");
                 FetchOk (VObj [("data"%string, VNull); ("status"%string, VNum 200)])]
                (VObj [("data"%string, VNull); ("status"%string, VNum 200)])
                VTypeError eq_refl eq_refl) as (_ & _ & _ & H).
  destruct (H [Tick; Tick; Tick; CallLoad; Tick; Tick]) as (_ & A & B & _ & C).
  split; [|split; [exact A|exact B]].
  apply (C 0 "apiUrl"%string (VStr "http://fallback")). reflexivity.
Defined.

(** X3. Over the whole life of the class at most one notification is
    shown, whatever is called and however often: the log of [showToast]
    is empty, or it is the one connection notification and the request
    was rejected with an error whose [status] is falsy. *)
Theorem X3_at_most_one_toast (e : environment) (evs : list event) :
  let st := run evs (init e) in
  toasts st = []
  \/ (toasts st = [connection_toast]
      /\ exists error status,
           fetch_outcome st = Some (Rejected error)
           /\ get_prop error "status" = Some status
           /\ truthy status = false).
Proof.
  intros st. pose proof (reachable_inv e evs) as Hinv. fold st in Hinv.
  destruct (requests_cases _ Hinv) as [(Hp & _ & _)|(p & Hp & Hc & Hr)].
  - left. unfold Inv in Hinv. rewrite Hp in Hinv. tauto.
  - rewrite (c_toasts _ _ Hc).
    destruct (pst st (p + 2)); [|auto].
    destruct (pst st (p + 1)) as [[v|error]|] eqn:E0; auto.
    simpl. unfold on_fetch_error.
    destruct (get_prop error "status") as [status|] eqn:Es; auto.
    destruct (truthy status) eqn:Et; simpl; auto.
    right. split; auto. exists error, status.
    unfold fetch_outcome. rewrite Hr. auto.
Qed.

(** X4. A looked-up value that is not [undefined] is returned as it is,
    whatever default was passed: the default never replaces a cached
    value, not even a falsy one such as the empty string or [null]. *)
Theorem X4_present_value_wins (e : environment) (evs : list event)
    (k : string) (d v : value) :
  let st := run evs (init e) in
  is_null (settings st) = false ->
  opt_index (settings st) k = v ->
  is_undefined v = false ->
  pst (drain (snd (get k d st))) (fst (get k d st)) = Some (Fulfilled v).
Proof.
  intros st Hn Hv Hu. rewrite get_after_loaded by (auto; apply reachable_inv).
  fold st. unfold get_resume. rewrite Hv, Hu. reflexivity.
Qed.

Lemma X4_witness :
  let response := VObj [("data"%string, VObj [("api_url"%string, VStr "")])] in
  let st := run [CallLoad; FetchOk response; Tick; Tick; Tick; Tick]
                (init example_env) in
  is_null (settings st) = false
  /\ opt_index (settings st) "apiUrl" = VStr ""
  /\ is_undefined (VStr "") = false
  /\ pst (drain (snd (get "apiUrl" (VStr "http://fallback") st)))
         (fst (get "apiUrl" (VStr "http://fallback") st))
     = Some (Fulfilled (VStr "")).
Proof.
  do 3 (split; [reflexivity|]).
  apply (X4_present_value_wins example_env
           [CallLoad; FetchOk (VObj [("data"%string, VObj [("api_url"%string, VStr "")])]);
            Tick; Tick; Tick; Tick]
           "apiUrl" (VStr "http://fallback") (VStr "") eq_refl eq_refl eq_refl).
Defined.

(** X5. By the time the promise of any [load] call is fulfilled, the
    public [settings] slot holds that very value, and it is not [null]:
    code that runs after [await UiSettings.load()] may read
    [UiSettings.settings].  No [load] call is ever rejected. *)
Theorem X5_fulfilled_load_has_set_the_slot (e : environment) (evs : list event)
    (l : pid) (o : settled) :
  let st := run evs (init e) in
  is_load st l -> pst st l = Some o ->
  o = Fulfilled (settings st)
  /\ is_null (settings st) = false
  /\ promise_outcome st = Some (Fulfilled (settings st)).
Proof.
  intros st Hl Ho. pose proof (reachable_inv e evs) as Hinv. fold st in Hinv.
  destruct (load_has_promise _ _ Hinv Hl) as [p Hp].
  pose proof (inv_promise _ Hinv _ Hp) as Hc.
  pose proof (c_loads _ _ Hc l Hl) as H. unfold load_ok in H. rewrite Ho in H.
  destruct H as (_ & v & -> & Hv).
  pose proof (loaded_not_null _ _ Hc _ Hv) as Hn. destruct Hv as [Hs EP].
  unfold promise_outcome. rewrite Hp, Hs. subst v. auto.
Qed.

Lemma X5_witness :
  let st := run [CallLoad; CallLoad; FetchOk example_response;
                 Tick; Tick; Tick; Tick; Tick; Tick]
                (init example_env) in
  is_load st 6 /\ pst st 6 = Some (Fulfilled example_settings)
  /\ promise_outcome st = Some (Fulfilled (settings st)).
Proof.
  split; [reflexivity|]. split; [reflexivity|].
  pose proof (X5_fulfilled_load_has_set_the_slot example_env
                [CallLoad; CallLoad; FetchOk example_response;
                 Tick; Tick; Tick; Tick; Tick; Tick]
                6 (Fulfilled example_settings) eq_refl eq_refl) as (_ & _ & H).
  exact H.
Defined.



(** X7. The [settings] slot only ever holds [null] or an object with the
    single property [apiUrl], whose value is the [api_url] of the [data]
    of the response the request was fulfilled with: no other field of the
    response, and nothing of a failure, reaches the slot. *)
Theorem X7_settings_shape (e : environment) (evs : list event) :
  let st := run evs (init e) in
  settings st = VNull
  \/ exists response body u,
       fetch_outcome st = Some (Fulfilled response)
       /\ get_prop response "data" = Some body
       /\ get_prop body "api_url" = Some u
       /\ settings st = VObj [("apiUrl"%string, u)].
Proof.
  intros st. pose proof (reachable_inv e evs) as Hinv. fold st in Hinv.
  destruct (is_null (settings st)) eqn:Hn.
  - left. destruct (settings st); try discriminate. reflexivity.
  - right. apply settings_origin; auto.
Qed.

(** X8. The microtasks run out: from any state, [weight] ticks empty the
    queue, and ticks beyond that change nothing.  In particular the chain
    built by [load] never reschedules itself. *)
Theorem X8_queue_drains (st : state) (n : nat) :
  weight st <= n -> queue (ticks n st) = [] /\ ticks n st = drain st.
Proof.
  intros Hn. split; [apply ticks_quiescent; exact Hn|].
  unfold drain. replace n with (weight st + (n - weight st)) by lia.
  unfold ticks at 1. rewrite repeat_app, run_app.
  apply (ticks_idle (n - weight st)). apply drain_quiescent.
Qed.

Lemma X8_witness :
  let st := run [CallLoad; CallGet "apiUrl" VUndefined; CallLoad;
                 FetchOk example_response] (init example_env) in
  weight st <= 40
  /\ queue (ticks 40 st) = []
  /\ pst (ticks 40 st) 6 = Some (Fulfilled (VStr "http://example.com")).
Proof.
  split; [vm_compute; lia|].
  destruct (X8_queue_drains
              (run [CallLoad; CallGet "apiUrl" VUndefined; CallLoad;
                    FetchOk example_response] (init example_env))
              40 ltac:(vm_compute; lia)) as [H1 H2].
  split; [exact H1|]. rewrite H2. reflexivity.
Defined.

(** X9. The [promise] slot is assigned once and never again, and the
    request issued with it stays the only one: there is no retry, not
    after a failure either. *)
Theorem X9_promise_is_assigned_once (e : environment) (evs evs' : list event)
    (p : pid) :
  let st := run evs (init e) in
  promise st = Some p ->
  promise (run evs' st) = Some p
  /\ requests (run evs' st) = requests st
  /\ length (requests st) = 1.
Proof.
  intros st Hp. pose proof (reachable_inv e evs) as Hinv. fold st in Hinv.
  pose proof (promise_run evs' st p Hp) as Hp'.
  split; [exact Hp'|]. split; [eapply requests_run; eauto|].
  rewrite (c_requests _ _ (inv_promise _ Hinv _ Hp)). reflexivity.
Qed.

Lemma X9_witness :
  let st := run [CallLoad; FetchFail network_error] (init example_env) in
  let evs' := [Tick; Tick; Tick; CallLoad; CallGet "apiUrl" VUndefined; Tick; Tick] in
  promise st = Some 1
  /\ promise (run evs' st) = Some 1
  /\ length (requests (run evs' st)) = 1.
Proof.
  split; [reflexivity|].
  pose proof (X9_promise_is_assigned_once example_env
                [CallLoad; FetchFail network_error]
                [Tick; Tick; Tick; CallLoad; CallGet "apiUrl" VUndefined; Tick; Tick]
                1 eq_refl) as (H1 & H2 & H3).
  split; [exact H1|]. rewrite H2. exact H3.
Defined.

(** X10. A key that names a member of [Object.prototype] ([toString],
    [constructor], ...) is never reported missing: the lookup finds the
    inherited member, and [get] is fulfilled with it, default or not. *)
Theorem X10_inherited_key_is_found (e : environment) (evs : list event)
    (k : string) (d : value) :
  let st := run evs (init e) in
  is_null (settings st) = false ->
  In k object_prototype ->
  pst (drain (snd (get k d st))) (fst (get k d st)) = Some (Fulfilled (VBuiltin k)).
Proof.
  intros st Hn Hk. pose proof (reachable_inv e evs) as Hinv. fold st in Hinv.
  rewrite get_after_loaded by auto.
  destruct (settings_origin _ Hinv Hn) as (_ & _ & u & _ & _ & _ & ->).
  unfold object_prototype in Hk. simpl in Hk.
  repeat (destruct Hk as [<-|Hk]; [reflexivity|]). destruct Hk.
Qed.

Lemma X10_witness :
  let st := run [CallLoad; FetchOk example_response; Tick; Tick; Tick; Tick]
                (init example_env) in
  is_null (settings st) = false
  /\ In "toString"%string object_prototype
  /\ pst (drain (snd (get "toString" VUndefined st)))
         (fst (get "toString" VUndefined st))
     = Some (Fulfilled (VBuiltin "toString")).
Proof.
  split; [reflexivity|].
  split; [simpl; tauto|].
  apply (X10_inherited_key_is_found example_env
           [CallLoad; FetchOk example_response; Tick; Tick; Tick; Tick]
           "toString" VUndefined eq_refl).
  simpl. tauto.
Defined.

(** X11. Nothing is fetched before it is asked for: the [promise] slot is
    unset exactly when neither [load] nor [get] has been called, and then
    there is no request, no promise, no microtask, no notification and no
    settings, whatever the network or the environment did meanwhile; the
    first call of either issues the request before it returns. *)
Theorem X11_nothing_before_the_first_call (e : environment) (evs : list event) :
  let st := run evs (init e) in
  (promise st = None
   <-> forall ev, In ev evs -> ev <> CallLoad /\ forall k d, ev <> CallGet k d)
  /\ (promise st = None <-> requests st = [])
  /\ (requests st = [] ->
      settings st = VNull /\ heap st = [] /\ queue st = [] /\ toasts st = []
      /\ length (requests (snd (load st))) = 1
      /\ forall k d, length (requests (snd (get k d st))) = 1).
Proof.
  intros st. pose proof (reachable_inv e evs) as Hinv. fold st in Hinv.
  assert (Hreq : promise st = None <-> requests st = []).
  { destruct (requests_cases _ Hinv) as [(Hp & Hr & _)|(p & Hp & _ & Hr)];
      rewrite Hp, Hr; split; auto; discriminate. }
  split; [|split; [exact Hreq|]].
  - split.
    + intros Hp ev Hin.
      destruct (in_split _ _ Hin) as (l1 & l2 & E).
      assert (Hcall : forall st1, Inv st1 ->
                (ev = CallLoad \/ exists k d, ev = CallGet k d) ->
                promise (step ev st1) <> None).
      { intros st1 Hinv1 Hev. destruct (promise st1) as [p|] eqn:Hp1.
        - rewrite (promise_step ev st1 p Hp1). discriminate.
        - rewrite (first_state st1 Hinv1 Hp1).
          destruct Hev as [->|(k & d & ->)]; unfold step;
            [rewrite first_load|rewrite first_get]; discriminate. }
      assert (Hno : promise (step ev (run l1 (init e))) <> None -> False).
      { intros Hne. destruct (promise (step ev (run l1 (init e)))) as [p|] eqn:Hp1;
          [|congruence].
        unfold st in Hp. rewrite E, run_app in Hp. simpl in Hp.
        rewrite (promise_run l2 _ p Hp1) in Hp. discriminate. }
      split.
      * intros ->. apply Hno, Hcall; [apply reachable_inv|auto].
      * intros k d ->. apply Hno, Hcall; [apply reachable_inv|eauto].
    + unfold st. clear st Hinv Hreq.
      induction evs as [|ev evs IH] using rev_ind; intros Hno; [reflexivity|].
      rewrite run_app. simpl.
      assert (Hp : promise (run evs (init e)) = None).
      { apply IH. intros ev' Hin. apply Hno, in_or_app. auto. }
      rewrite (first_state _ (reachable_inv e evs) Hp).
      assert (Hin : In ev (evs ++ [ev])) by (apply in_or_app; right; left; reflexivity).
      destruct (Hno ev Hin) as [H1 H2].
      destruct ev; try reflexivity.
      * congruence.
      * exfalso. eapply H2. reflexivity.
  - intros Hr. apply Hreq in Hr.
    rewrite (first_state st Hinv Hr). simpl.
    repeat (split; [reflexivity|]). intros k d. reflexivity.
Qed.

(** X12. A request rejected with [undefined] or [null] makes the handler
    of [.catch] itself throw, on reading [error.status]: no notification
    is ever shown, the promise of [.catch] is rejected with the
    [TypeError], and the mapper is passed over, the rejection going
    through [.then(mapSettingsResponse)] unchanged. *)
Theorem X12_nullish_rejection_is_silent (e : environment) (evs : list event)
    (error : value) :
  let st := run evs (init e) in
  fetch_outcome st = Some (Rejected error) ->
  get_prop error "status" = None ->
  (error = VUndefined \/ error = VNull)
  /\ caught (drain st) = Some (Rejected VTypeError)
  /\ mapped (drain st) = Some (Rejected VTypeError)
  /\ forall evs', toasts (run evs' st) = [].
Proof.
  intros st Hf Hs. pose proof (reachable_inv e evs) as Hinv. fold st in Hinv.
  assert (Hc : catch_outcome (Rejected error) = Rejected VTypeError).
  { simpl. unfold on_fetch_error. rewrite Hs. reflexivity. }
  split; [destruct error; simpl in Hs; auto; discriminate|].
  destruct (drained_chain _ Hinv _ Hf) as (p & _ & Hp' & _ & _ & E1 & E2 & _).
  unfold caught, mapped. rewrite Hp', E1, E2, Hc.
  split; [reflexivity|]. split; [reflexivity|].
  intros evs'.
  pose proof (fetch_outcome_run evs' _ _ Hinv Hf) as Hf'.
  pose proof (run_inv evs' _ Hinv) as Hinv'.
  destruct (fetch_outcome_chain _ Hinv' _ Hf') as (p' & _ & Hch & E0).
  rewrite (c_toasts _ _ Hch), E0.
  destruct (pst (run evs' st) (p' + 2)); [|reflexivity].
  simpl. unfold on_fetch_error. rewrite Hs. reflexivity.
Qed.

Lemma X12_witness :
  let st := run [CallLoad; FetchFail VUndefined] (init example_env) in
  fetch_outcome st = Some (Rejected VUndefined)
  /\ get_prop VUndefined "status" = None
  /\ caught (drain st) = Some (Rejected VTypeError)
  /\ toasts (run [Tick; Tick; CallLoad; Tick; Tick; Tick] st) = [].
Proof.
  split; [reflexivity|]. split; [reflexivity|].
  pose proof (X12_nullish_rejection_is_silent example_env
                [CallLoad; FetchFail VUndefined] VUndefined eq_refl eq_refl)
    as (_ & H1 & _ & H2).
  split; [exact H1|]. apply (H2 [Tick; Tick; CallLoad; Tick; Tick; Tick]).
Defined.

(** X13. The chain ends in the promise of [.then(resolve)], on which
    nothing is registered.  Once the request has settled and the
    microtasks have run, that promise is fulfilled with [undefined] if
    [resolve] was called, and otherwise rejected with a [TypeError] that
    no handler receives: every failure to load, of whatever kind, ends as
    the same unhandled rejection. *)
Theorem X13_failures_end_unhandled (e : environment) (evs : list event)
    (p : pid) (o : settled) :
  let st := run evs (init e) in
  promise st = Some p ->
  fetch_outcome st = Some o ->
  site_at (drain st) (p + 4) = Some SThenResolve
  /\ rs (drain st) (p + 4) = []
  /\ pst (drain st) (p + 4)
     = Some (match promise_outcome (drain st) with
             | Some _ => Fulfilled VUndefined
             | None => Rejected VTypeError
             end).
Proof.
  intros st Hp Hf. pose proof (reachable_inv e evs) as Hinv. fold st in Hinv.
  destruct (drained_chain _ Hinv _ Hf) as (p' & Hp1 & Hp' & Hc & _ & _ & E2 & EP & _).
  assert (p' = p) by congruence. subst p'.
  split; [apply (c_site_3 _ _ Hc)|]. split; [apply (c_last _ _ Hc)|].
  pose proof (c_link_2 _ _ Hc) as L2. unfold link in L2.
  rewrite E2, (drain_quiescent st) in L2. destruct L2 as [_ L2].
  destruct (pst (drain st) (p + 4)) as [o4|]; [subst o4|destruct L2].
  unfold promise_outcome. rewrite Hp', EP. unfold chain_outcome.
  destruct o as [response|error].
  - simpl. destruct (mapSettingsResponse response) as [s|err] eqn:Hm; simpl; auto.
    destruct (mapper_throws _ _ Hm) as [-> _]. reflexivity.
  - rewrite map_after_failure. reflexivity.
Qed.

Lemma X13_witness :
  let st := run [CallGet "apiUrl" VUndefined; FetchFail http_error]
                (init example_env) in
  promise st = Some 2
  /\ fetch_outcome st = Some (Rejected http_error)
  /\ promise_outcome (drain st) = None
  /\ pst (drain st) 6 = Some (Rejected VTypeError).
Proof.
  split; [reflexivity|]. split; [reflexivity|]. split; [reflexivity|].
  pose proof (X13_failures_end_unhandled example_env
                [CallGet "apiUrl" VUndefined; FetchFail http_error]
                2 (Rejected http_error) eq_refl eq_refl) as (_ & _ & H).
  exact H.
Defined.
